(** * CFDPython, lessons 1 and 2: the explicit upwind stepper

    A shallow embedding of the two notebooks [lessons/01_Step_1.ipynb]
    (1-D linear convection) and [lessons/02_Step_2.ipynb] (nonlinear
    convection).

    Arrays.  [u] and [un] are Python names bound to numpy arrays that live
    in a heap; [u.copy()] and [numpy.ones] allocate, [u[i] = ...] writes in
    place.  The heap is explicit so that aliasing between [u] and [un] can
    be stated.

    Numbers.  The notebooks compute on IEEE 754 binary64 values.  The
    cells are embedded twice.  First over exact rationals ([Qc], canonical
    fractions with Leibniz equality), where a numpy division by zero, whose
    result [inf] or [nan] is no rational, stops with [NonFinite]: this is
    the embedding for what does not depend on rounding (which indices are
    read and written, what is raised, the published runs, whose values are
    dyadic).  Then, in the module [Num], over an arithmetic that is a
    parameter, with the operations in the order and association of the
    cells; its instance [F64.binary64] is the arithmetic of the machine
    (Rocq's primitive floats), and statements about rounding, overflow and
    [nan] are made there. *)

From Stdlib Require Import ZArith QArith Qcanon Lqa.
From Stdlib Require Floats.
From stdpp Require Import base tactics option list numbers.

Local Open Scope Z_scope.

(** ** Values, failures, and the heap monad *)

Abbreviation ndarray := (list Qc) (only parsing).
Abbreviation addr := nat (only parsing).
Abbreviation heap := (list (list Qc)) (only parsing).

(** The first four are the Python exceptions the notebooks can raise.
    [NonFinite] and [Dangling] have no Python counterpart: the first marks
    a numpy result outside the rationals, the second a read through an
    address that was never allocated (no program below produces one). *)
Inductive failure : Type :=
  | IndexError
  | ZeroDivisionError
  | ValueError
  | OverflowError
  | NonFinite
  | Dangling.

Inductive result (A : Type) : Type :=
  | Ok (a : A)
  | Raise (e : failure).
Arguments Ok {A} a.
Arguments Raise {A} e.

Definition M (A : Type) : Type := heap → result (A * heap).

Global Instance M_ret : MRet M := λ A a h, Ok (a, h).

Global Instance M_bind : MBind M := λ A B f m h,
  match m h with
  | Ok (a, h') => f a h'
  | Raise e => Raise e
  end.

Definition raise {A} (e : failure) : M A := λ _, Raise e.

(** Run a program on the empty heap and keep its value. *)
Definition run {A} (m : M A) : result A :=
  match m [] with
  | Ok (a, _) => Ok a
  | Raise e => Raise e
  end.

Definition alloc (a : ndarray) : M addr := λ h, Ok (length h, h ++ [a]).

Definition deref (p : addr) : M ndarray := λ h,
  match h !! p with
  | Some a => Ok (a, h)
  | None => Raise Dangling
  end.

Definition store (p : addr) (a : ndarray) : M unit := λ h, Ok (tt, <[p:=a]> h).

Fixpoint for_ {A} (l : list A) (body : A → M unit) : M unit :=
  match l with
  | [] => mret tt
  | x :: l' => body x ;; for_ l' body
  end.

(** ** Python and numpy primitives *)

(** [range(lo, hi)] is [seqZ lo (hi - lo)]; it is empty when [hi <= lo]. *)
Definition range (lo hi : Z) : list Z := seqZ lo (hi - lo).

(** numpy integer indexing of a 1-D array of length [len]: [0 <= i < len]
    is taken as is, [-len <= i < 0] counts from the end, anything else is
    an [IndexError]. *)
Definition norm_index (len i : Z) : option nat :=
  if decide (0 ≤ i < len) then Some (Z.to_nat i)
  else if decide (- len ≤ i < 0) then Some (Z.to_nat (i + len))
  else None.

(** [a[i]] *)
Definition getitem (p : addr) (i : Z) : M Qc :=
  a ← deref p;
  match norm_index (Z.of_nat (length a)) i ≫= (a !!.) with
  | Some x => mret x
  | None => raise IndexError
  end.

(** [a[i] = x] *)
Definition setitem (p : addr) (i : Z) (x : Qc) : M unit :=
  a ← deref p;
  match norm_index (Z.of_nat (length a)) i with
  | Some k => store p (<[k:=x]> a)
  | None => raise IndexError
  end.

(** [numpy.ones(n)]: a negative dimension is a [ValueError]. *)
Definition ones (n : Z) : M addr :=
  if decide (n < 0) then raise ValueError
  else alloc (replicate (Z.to_nat n) 1%Qc).

(** [a.copy()]: a fresh array with the same contents. *)
Definition copy (p : addr) : M addr := a ← deref p; alloc a.

(** Python's [/] on [int] and [float] operands raises on a zero divisor. *)
Definition pydiv (a b : Qc) : M Qc :=
  if decide (b = 0%Qc) then raise ZeroDivisionError else mret (a / b)%Qc.

(** [/] with a [numpy.float64] numerator: a zero divisor gives [inf] or
    [nan] (with a warning), which is not a rational. *)
Definition npdiv (a b : Qc) : M Qc :=
  if decide (b = 0%Qc) then raise NonFinite else mret (a / b)%Qc.

(** [int(x)] truncates towards zero. *)
Definition int (x : Qc) : Z := Z.quot (Qnum x) (Z.pos (Qden x)).

(** Bounds of a slice [a[start:stop]] over an array of length [len], as
    Python's [slice.indices] computes them for step 1. *)
Definition clamp_index (len i : Z) : Z :=
  Z.max 0 (Z.min len (if decide (i < 0) then i + len else i)).

(** [a[start:stop] = x] with a scalar [x]. *)
Definition setslice (p : addr) (start stop : Z) (x : Qc) : M unit :=
  a ← deref p;
  let len := Z.of_nat (length a) in
  let lo := clamp_index len start in
  let hi := clamp_index len stop in
  store p (foldr (λ j acc, <[Z.to_nat j:=x]> acc) a (range lo hi)).

(** ** The notebooks *)

(** Literals of the notebooks. *)
Definition qc (n : Z) (d : positive) : Qc := Q2Qc (n # d).

(** Lesson 1, cell 3: [dx = 2 / (nx-1)]. *)
Definition grid_spacing (nx : Z) : M Qc :=
  pydiv (qc 2 1) (Q2Qc (inject_Z (nx - 1))).

(** Lesson 1, cell 4 (and lesson 2, cell 1):
[[
u = numpy.ones(nx)
u[int(.5 / dx):int(1 / dx + 1)] = 2
]] *)
Definition initial_condition (nx : Z) (dx : Qc) : M addr :=
  u ← ones nx;
  lo ← pydiv (qc 1 2) dx;
  hi ← pydiv (qc 1 1) dx;
  setslice u (int lo) (int (hi + qc 1 1)%Qc) (qc 2 1);;
  mret u.

(** Lesson 1, cell 6, the assignment in the inner loop:
[[
u[i] = un[i] - c * dt / dx * (un[i] - un[i-1])
]]
    The right-hand side is evaluated left to right, then the store. *)
Definition linear_update (c dt dx : Qc) (u un : addr) (i : Z) : M unit :=
  a ← getitem un i;
  k ← pydiv (c * dt)%Qc dx;
  b ← getitem un i;
  b' ← getitem un (i - 1);
  setitem u i (a - k * (b - b'))%Qc.

(** Lesson 2, cell 2:
[[
u[i] = un[i] - un[i] * dt / dx * (un[i] - un[i-1])
]] *)
Definition nonlinear_update (dt dx : Qc) (u un : addr) (i : Z) : M unit :=
  a ← getitem un i;
  s ← getitem un i;
  k ← npdiv (s * dt)%Qc dx;
  b ← getitem un i;
  b' ← getitem un (i - 1);
  setitem u i (a - k * (b - b'))%Qc.

(** One pass of the outer loop body:
[[
    un = u.copy()
    for i in range(1, nx):
        u[i] = ...
]] *)
Definition sweep (update : addr → addr → Z → M unit) (nx : Z) (u : addr)
  : M unit :=
  un ← copy u;
  for_ (range 1 nx) (update u un).

(** [for n in range(nt): ...] *)
Definition time_loop (update : addr → addr → Z → M unit) (nx nt : Z)
    (u : addr) : M unit :=
  for_ (range 0 nt) (λ _, sweep update nx u).

(** Lesson 1, cell 6 as a whole: the placeholder [un = numpy.ones(nx)],
    then the time loop. *)
Definition step1_loop (nx nt : Z) (c dt dx : Qc) (u : addr) : M unit :=
  ones nx;;
  time_loop (linear_update c dt dx) nx nt u.

(** Lesson 2: the placeholder is allocated in cell 1, the loop is cell 2. *)
Definition step2_loop (nx nt : Z) (dt dx : Qc) (u : addr) : M unit :=
  ones nx;;
  time_loop (nonlinear_update dt dx) nx nt u.

(** The stepper on a given field: [u] holds [field], [nx] is its length,
    and the result is the contents of [u] after [nt] sweeps. *)
Definition linear_stepper (c dt dx : Qc) (nt : Z) (field : ndarray)
  : M ndarray :=
  u ← alloc field;
  step1_loop (Z.of_nat (length field)) nt c dt dx u;;
  deref u.

Definition nonlinear_stepper (dt dx : Qc) (nt : Z) (field : ndarray)
  : M ndarray :=
  u ← alloc field;
  step2_loop (Z.of_nat (length field)) nt dt dx u;;
  deref u.

Definition advance_linear (c dt dx : Qc) (nt : Z) (field : ndarray)
  : result ndarray :=
  run (linear_stepper c dt dx nt field).

Definition advance_nonlinear (dt dx : Qc) (nt : Z) (field : ndarray)
  : result ndarray :=
  run (nonlinear_stepper dt dx nt field).

(** Construction of the grid and of the starting field (lesson 1, cells 3
    and 4): the spacing and the contents of [u]. *)
Definition construct (nx : Z) : result (Qc * ndarray) :=
  run (dx ← grid_spacing nx;
       u ← initial_condition nx dx;
       a ← deref u;
       mret (dx, a)).

(** Lesson 1 from top to bottom, with its parameters left open. *)
Definition lesson1 (nx nt : Z) (c dt : Qc) : result ndarray :=
  run (dx ← grid_spacing nx;
       u ← initial_condition nx dx;
       step1_loop nx nt c dt dx u;;
       deref u).

(** Lesson 2 from top to bottom. *)
Definition lesson2 (nx nt : Z) (dt : Qc) : result ndarray :=
  run (dx ← grid_spacing nx;
       u ← initial_condition nx dx;
       step2_loop nx nt dt dx u;;
       deref u).

(** The notebooks with the parameters they are published with:
    [nx = 41], [nt = 25] and [c = 1] (lesson 1), [nt = 20] (lesson 2),
    [dt = .025]. *)
Definition lesson1_given : result ndarray := lesson1 41 25 (qc 1 1) (qc 1 40).
Definition lesson2_given : result ndarray := lesson2 41 20 (qc 1 40).

(** An observation of a result. *)
Definition observe {A B} (f : A → B) (r : result A) : option B :=
  match r with Ok a => Some (f a) | Raise _ => None end.

(** The number of arrays a program leaves on the heap.  For a stepper
    these are the field, the placeholder, and the snapshot [u.copy()] of
    every sweep it has performed. *)
Definition heap_size_after {A} (m : M A) : option nat :=
  match m [] with Ok (_, h) => Some (length h) | Raise _ => None end.

(** ** The reference stepper, written from the specification

    [advance(field, steps, dx, dt, speed_fn)]: for each of [steps]
    iterations, take a snapshot, and for every index [i] from 1 to [N-1]
    set [field[i] = snapshot[i] - speed_fn(snapshot[i]) * (dt/dx) *
    (snapshot[i] - snapshot[i-1])]; index 0 is never updated. *)

Global Instance Qc_inhabited : Inhabited Qc := populate 0%Qc.

Definition sweep_ref (speed_fn : Qc → Qc) (dt dx : Qc) (snapshot : ndarray)
  : ndarray :=
  imap (λ i x,
    if decide (i = 0)%nat then x
    else (snapshot !!! i
          - speed_fn (snapshot !!! i) * (dt / dx)
            * (snapshot !!! i - snapshot !!! (i - 1)%nat))%Qc) snapshot.

Definition advance_ref (speed_fn : Qc → Qc) (dt dx : Qc) (steps : nat)
    (field : ndarray) : ndarray :=
  Nat.iter steps (sweep_ref speed_fn dt dx) field.

(** The two speed functions of the specification. *)
Definition speed_const (c : Qc) : Qc → Qc := λ _, c.
Definition speed_local : Qc → Qc := λ x, x.

(** ** What the inner loop writes

    [stencil_value speed dt dx x xl] is the right-hand side of the
    assignment as the notebooks associate it, [(speed * dt) / dx], for
    [x = un[i]] and [xl = un[i-1]]; [stencil] reads the two from [s]. *)
Definition stencil_value (speed : Qc → Qc) (dt dx x xl : Qc) : Qc :=
  (x - speed x * dt / dx * (x - xl))%Qc.

Definition stencil (speed : Qc → Qc) (dt dx : Qc) (s : ndarray) (i : nat)
  : Qc :=
  stencil_value speed dt dx (s !!! i) (s !!! (i - 1)%nat).

(** The array [u] after the inner loop has run for [i = 1 .. k], when the
    snapshot is [s]; and after the whole sweep. *)
Definition written (F : ndarray → nat → Qc) (k : nat) (s : ndarray)
  : ndarray :=
  imap (λ i x, if decide (1 ≤ i ≤ k)%nat then F s i else x) s.

Definition swept (F : ndarray → nat → Qc) (s : ndarray) : ndarray :=
  written F (length s - 1) s.

(** An assignment [update] that reads [un] in bounds and stores [F un i]
    into [u[i]]. *)
Definition update_spec (F : ndarray → nat → Qc)
    (update : addr → addr → Z → M unit) : Prop :=
  ∀ (h : heap) (u un : addr) (a s : ndarray) (i : nat),
    u ≠ un → h !! u = Some a → h !! un = Some s →
    length a = length s → (1 ≤ i < length s)%nat →
    update u un (Z.of_nat i) h = Ok (tt, <[u:=<[i:=F s i]> a]> h).

(** An assignment that stops with [e] as soon as it has read [un[i]]. *)
Definition update_raises (e : failure) (update : addr → addr → Z → M unit)
  : Prop :=
  ∀ (h : heap) (u un : addr) (s : ndarray) (i : nat),
    h !! un = Some s → (i < length s)%nat →
    update u un (Z.of_nat i) h = Raise e.

(** ** The middle of a sweep *)

(** The sweep stopped after the iterations [i = 1 .. k] of its inner loop;
    it returns the address bound to [un].  [sweep] is the case
    [k = nx - 1]. *)
Definition sweep_prefix (update : addr → addr → Z → M unit) (k : nat)
    (u : addr) : M addr :=
  un ← copy u;
  for_ (range 1 (1 + Z.of_nat k)) (update u un);;
  mret un.

(** The heap [h'] in the middle of a sweep that started with [u] holding
    [s]: [un] is another array than [u] and still holds [s]; the entries
    [1 .. k] of [u] are the stencil of the two snapshot entries [s[i]] and
    [s[i-1]]; the other entries of [u] are those of [s]. *)
Definition mid_sweep (speed : Qc → Qc) (dt dx : Qc) (k : nat) (u : addr)
    (s : ndarray) (un : addr) (h' : heap) : Prop :=
  un ≠ u ∧ h' !! un = Some s
  ∧ ∃ a, h' !! u = Some a ∧ length a = length s
      ∧ (∀ i, (1 ≤ i ≤ k)%nat →
           a !! i = Some (stencil_value speed dt dx (s !!! i) (s !!! (i - 1)%nat)))
      ∧ (∀ i, ¬ (1 ≤ i ≤ k)%nat → a !! i = s !! i).

(** For contrast, the inner loop with [un] bound to the array [u] itself
    (no copy): the assignment at [i = 2] then reads the value just written
    at [i = 1]. *)
Definition sweep_aliased (update : addr → addr → Z → M unit) (nx : Z)
    (u : addr) : M unit :=
  for_ (range 1 nx) (update u u).

(** ** Profiles and their edges *)

(** The hat profile on 41 points, as lesson 1 prints it after cell 4. *)
Definition hat41 : ndarray :=
  replicate 10 (qc 1 1) ++ replicate 11 (qc 2 1) ++ replicate 20 (qc 1 1).

(** Index of the first, and of the last, entry that satisfies [P]. *)
Definition first_index (P : Qc → Prop) `{∀ x, Decision (P x)} (l : ndarray)
  : option nat :=
  fst <$> list_find P l.

Definition last_index (P : Qc → Prop) `{∀ x, Decision (P x)} (l : ndarray)
  : option nat :=
  (λ j, length l - 1 - j)%nat <$> first_index P (reverse l).

(** The transition from value 1 to values above 1. *)
Definition leading_edge (u : ndarray) : option nat :=
  first_index (λ x, 1 < x)%Qc u.

(** The two places where the profile crosses half of its height, 3/2. *)
Definition rising_half_height (u : ndarray) : option nat :=
  first_index (λ x, qc 3 2 ≤ x)%Qc u.

Definition falling_half_height (u : ndarray) : option nat :=
  last_index (λ x, qc 3 2 ≤ x)%Qc u.

(** The other end of the raised part: the last index with a value above 1. *)
Definition upper_edge (u : ndarray) : option nat :=
  last_index (λ x, 1 < x)%Qc u.

(** The position [edge] moved from [u0] to [r] by [cells] grid cells, up to
    [tol] cells. *)
Definition shifted_by_about (edge : ndarray → option nat) (u0 r : ndarray)
    (cells tol : Qc) : Prop :=
  ∃ e0 e1 : nat,
    edge u0 = Some e0 ∧ edge r = Some e1
    ∧ (cells - tol ≤ Q2Qc (inject_Z (Z.of_nat e1 - Z.of_nat e0)))%Qc
    ∧ (Q2Qc (inject_Z (Z.of_nat e1 - Z.of_nat e0)) ≤ cells + tol)%Qc.

(** ** Bounds of a field *)



(** The Courant number [speed_fn(snapshot[i]) * dt / dx] lies in [0, 1] at
    every interior index. *)
Definition courant_ok (speed : Qc → Qc) (dt dx : Qc) (s : ndarray) : Prop :=
  ∀ i, (1 ≤ i < length s)%nat →
       (0 ≤ speed (s !!! i) * dt / dx)%Qc ∧ (speed (s !!! i) * dt / dx ≤ 1)%Qc.


(** ** The grid for any number of points *)

(** The initial condition on [nx] points: 2 from index [(nx-1) div 4] up
    to, and without, index [(nx+1) div 2], and 1 elsewhere. *)
Definition hat (nx : Z) : ndarray :=
  (λ i : Z, if decide ((nx - 1) ÷ 4 ≤ i < (nx + 1) ÷ 2)
            then qc 2 1 else qc 1 1) <$> seqZ 0 nx.

(** ** The loop over all indices

    Lesson 1, cell 6, with the head of the inner loop exchanged as its
    comments invite ("you can try commenting this line and uncommenting
    this line and see what happens!"):
[[
    for i in range(nx):
        u[i] = un[i] - c * dt / dx * (un[i] - un[i-1])
]]
    At [i = 0] the index [i-1] is [-1], the last entry of [un]. *)
Definition sweep_all (update : addr → addr → Z → M unit) (nx : Z) (u : addr)
  : M unit :=
  un ← copy u;
  for_ (range 0 nx) (update u un).

Definition time_loop_all (update : addr → addr → Z → M unit) (nx nt : Z)
    (u : addr) : M unit :=
  for_ (range 0 nt) (λ _, sweep_all update nx u).

Definition advance_linear_all (c dt dx : Qc) (nt : Z) (field : ndarray)
  : result ndarray :=
  run (u ← alloc field;
       (ones (Z.of_nat (length field));;
        time_loop_all (linear_update c dt dx) (Z.of_nat (length field)) nt u);;
       deref u).

(** The index that [i - 1] denotes in an array of [n] entries. *)
Definition left_neighbour (n i : nat) : nat :=
  if decide (i = 0)%nat then (n - 1)%nat else (i - 1)%nat.

(** The upwind sweep on a ring: every entry is updated, entry 0 with the
    last entry as its left neighbour. *)
Definition sweep_ring (c dt dx : Qc) (s : ndarray) : ndarray :=
  imap (λ i x, stencil_value (speed_const c) dt dx x
                 (s !!! left_neighbour (length s) i)) s.

(** The array [u] after the loop over all indices has run for
    [i = 0 .. k-1]. *)
Definition written_all (F : ndarray → nat → Qc) (k : nat) (s : ndarray)
  : ndarray :=
  imap (λ i x, if decide (i < k)%nat then F s i else x) s.

(** An assignment [update] that, at any index [i] of the array, reads [un]
    in bounds and stores [F un i] into [u[i]]. *)
Definition update_spec_all (F : ndarray → nat → Qc)
    (update : addr → addr → Z → M unit) : Prop :=
  ∀ (h : heap) (u un : addr) (a s : ndarray) (i : nat),
    u ≠ un → h !! u = Some a → h !! un = Some s →
    length a = length s → (i < length s)%nat →
    update u un (Z.of_nat i) h = Ok (tt, <[u:=<[i:=F s i]> a]> h).

(** What the assignment of lesson 1 stores at index [i] when [i - 1] may
    wrap around. *)
Definition stencil_ring (c dt dx : Qc) (s : ndarray) (i : nat) : Qc :=
  stencil_value (speed_const c) dt dx (s !!! i)
    (s !!! left_neighbour (length s) i).

(** * The notebooks over the arithmetic they run on

    Everything above computes in exact rationals.  The notebooks compute in
    IEEE 754 binary64: [dx], [dt] and [.5] are Python floats, the entries
    of [u] are [numpy.float64], and every [*], [/], [-] and [+] rounds to
    nearest, ties to even.  The module [Num] embeds the same cells once
    more, over an arithmetic [Arith T] that is a parameter: the operations
    the cells apply, in the order and association in which Python
    evaluates them.  Two instances follow: [exact_arith], the rationals
    (for which [Num] and the definitions above agree), and [F64.binary64],
    the floating-point operations of the machine. *)

Module Num.

(** What the cells use of their numbers.  [of_int] converts a Python
    [int]; [quot] is [/] on a divisor that is not zero and [is_zero] the
    test [b == 0] that Python's own [/] makes first; [np_quot] is [/] with
    a [numpy.float64] numerator, which makes no such test; [trunc] is
    [int(x)]. *)
Class Arith (T : Type) : Type := {
  of_int : Z → T;
  add : T → T → T;
  sub : T → T → T;
  mul : T → T → T;
  quot : T → T → T;
  is_zero : T → bool;
  np_quot : T → T → result T;
  trunc : T → result Z
}.

Section notebooks.
Context {T : Type} {arith : Arith T}.

#[global] Instance inhabited : Inhabited T | 100 := populate (of_int 0).

(** ** The heap monad *)

Definition M (A : Type) : Type := list (list T) → result (A * list (list T)).

#[global] Instance M_ret : MRet M | 100 := λ A a h, Ok (a, h).

#[global] Instance M_bind : MBind M | 100 := λ A B f m h,
  match m h with
  | Ok (a, h') => f a h'
  | Raise e => Raise e
  end.

Definition raise {A} (e : failure) : M A := λ _, Raise e.

(** A computation that touches no array. *)
Definition lift {A} (r : result A) : M A := λ h,
  match r with
  | Ok a => Ok (a, h)
  | Raise e => Raise e
  end.

Definition run {A} (m : M A) : result A :=
  match m [] with
  | Ok (a, _) => Ok a
  | Raise e => Raise e
  end.

Definition alloc (a : list T) : M nat := λ h, Ok (length h, h ++ [a]).

Definition deref (p : nat) : M (list T) := λ h,
  match h !! p with
  | Some a => Ok (a, h)
  | None => Raise Dangling
  end.

Definition store (p : nat) (a : list T) : M unit := λ h, Ok (tt, <[p:=a]> h).

Fixpoint for_ {A} (l : list A) (body : A → M unit) : M unit :=
  match l with
  | [] => mret tt
  | x :: l' => body x ;; for_ l' body
  end.

(** ** Python and numpy primitives *)

(** [a[i]] *)
Definition getitem (p : nat) (i : Z) : M T :=
  a ← deref p;
  match norm_index (Z.of_nat (length a)) i ≫= (a !!.) with
  | Some x => mret x
  | None => raise IndexError
  end.

(** [a[i] = x] *)
Definition setitem (p : nat) (i : Z) (x : T) : M unit :=
  a ← deref p;
  match norm_index (Z.of_nat (length a)) i with
  | Some k => store p (<[k:=x]> a)
  | None => raise IndexError
  end.

(** [numpy.ones(n)] *)
Definition ones (n : Z) : M nat :=
  if decide (n < 0) then raise ValueError
  else alloc (replicate (Z.to_nat n) (of_int 1)).

(** [a.copy()] *)
Definition copy (p : nat) : M nat := a ← deref p; alloc a.

(** [a / b] on two Python [int]s (the quotient of the two conversions, for
    operands below [2^53] in absolute value, as the size of an array
    is). *)
Definition intdiv (a b : Z) : M T :=
  if decide (b = 0) then raise ZeroDivisionError
  else mret (quot (of_int a) (of_int b)).

(** [a / b] on Python [float]s, or an [int] and a [float]. *)
Definition pydiv (a b : T) : M T :=
  if is_zero b then raise ZeroDivisionError else mret (quot a b).

(** [a / b] with a [numpy.float64] numerator. *)
Definition npdiv (a b : T) : M T := lift (np_quot a b).

(** [int(x)] *)
Definition int (x : T) : M Z := lift (trunc x).

(** [a[start:stop] = x] with a scalar [x]. *)
Definition setslice (p : nat) (start stop : Z) (x : T) : M unit :=
  a ← deref p;
  let len := Z.of_nat (length a) in
  let lo := clamp_index len start in
  let hi := clamp_index len stop in
  store p (foldr (λ j acc, <[Z.to_nat j:=x]> acc) a (range lo hi)).

(** ** The cells *)

(** The literal [.5]. *)
Definition half : T := quot (of_int 1) (of_int 2).

(** [dx = 2 / (nx-1)] *)
Definition grid_spacing (nx : Z) : M T := intdiv 2 (nx - 1).

(** [[
u = numpy.ones(nx)
u[int(.5 / dx):int(1 / dx + 1)] = 2
]]
    The lower bound of the slice is evaluated before the upper one. *)
Definition initial_condition (nx : Z) (dx : T) : M nat :=
  u ← ones nx;
  lo ← pydiv half dx;
  start ← int lo;
  hi ← pydiv (of_int 1) dx;
  stop ← int (add hi (of_int 1));
  setslice u start stop (of_int 2);;
  mret u.

(** [u[i] = un[i] - c * dt / dx * (un[i] - un[i-1])]: Python parses
    [c * dt / dx * d] as [((c * dt) / dx) * d]. *)
Definition linear_update (c dt dx : T) (u un : nat) (i : Z) : M unit :=
  a ← getitem un i;
  k ← pydiv (mul c dt) dx;
  b ← getitem un i;
  b' ← getitem un (i - 1);
  setitem u i (sub a (mul k (sub b b'))).

(** [u[i] = un[i] - un[i] * dt / dx * (un[i] - un[i-1])] *)
Definition nonlinear_update (dt dx : T) (u un : nat) (i : Z) : M unit :=
  a ← getitem un i;
  s ← getitem un i;
  k ← npdiv (mul s dt) dx;
  b ← getitem un i;
  b' ← getitem un (i - 1);
  setitem u i (sub a (mul k (sub b b'))).

Definition sweep (update : nat → nat → Z → M unit) (nx : Z) (u : nat)
  : M unit :=
  un ← copy u;
  for_ (range 1 nx) (update u un).

Definition time_loop (update : nat → nat → Z → M unit) (nx nt : Z) (u : nat)
  : M unit :=
  for_ (range 0 nt) (λ _, sweep update nx u).

Definition step1_loop (nx nt : Z) (c dt dx : T) (u : nat) : M unit :=
  ones nx;;
  time_loop (linear_update c dt dx) nx nt u.

Definition step2_loop (nx nt : Z) (dt dx : T) (u : nat) : M unit :=
  ones nx;;
  time_loop (nonlinear_update dt dx) nx nt u.

Definition linear_stepper (c dt dx : T) (nt : Z) (field : list T)
  : M (list T) :=
  u ← alloc field;
  step1_loop (Z.of_nat (length field)) nt c dt dx u;;
  deref u.

Definition nonlinear_stepper (dt dx : T) (nt : Z) (field : list T)
  : M (list T) :=
  u ← alloc field;
  step2_loop (Z.of_nat (length field)) nt dt dx u;;
  deref u.

Definition advance_linear (c dt dx : T) (nt : Z) (field : list T)
  : result (list T) :=
  run (linear_stepper c dt dx nt field).

Definition advance_nonlinear (dt dx : T) (nt : Z) (field : list T)
  : result (list T) :=
  run (nonlinear_stepper dt dx nt field).

Definition construct (nx : Z) : result (T * list T) :=
  run (dx ← grid_spacing nx;
       u ← initial_condition nx dx;
       a ← deref u;
       mret (dx, a)).

Definition lesson1 (nx nt : Z) (c dt : T) : result (list T) :=
  run (dx ← grid_spacing nx;
       u ← initial_condition nx dx;
       step1_loop nx nt c dt dx u;;
       deref u).

Definition lesson2 (nx nt : Z) (dt : T) : result (list T) :=
  run (dx ← grid_spacing nx;
       u ← initial_condition nx dx;
       step2_loop nx nt dt dx u;;
       deref u).

Definition heap_size_after {A} (m : M A) : option nat :=
  match m [] with Ok (_, h) => Some (length h) | Raise _ => None end.

(** ** What a sweep computes *)

Definition speed_const (c : T) : T → T := λ _, c.
Definition speed_local : T → T := λ x, x.

(** The right-hand side of the assignment, with the operations and the
    association of the cell: [x - ((speed * dt) / dx) * (x - xl)]. *)
Definition stencil_value (speed : T → T) (dt dx x xl : T) : T :=
  sub x (mul (quot (mul (speed x) dt) dx) (sub x xl)).

Definition stencil (speed : T → T) (dt dx : T) (s : list T) (i : nat) : T :=
  stencil_value speed dt dx (s !!! i) (s !!! (i - 1)%nat).

Definition written (F : list T → nat → T) (k : nat) (s : list T) : list T :=
  imap (λ i x, if decide (1 ≤ i ≤ k)%nat then F s i else x) s.

Definition swept (F : list T → nat → T) (s : list T) : list T :=
  written F (length s - 1) s.

(** One sweep, and [steps] sweeps, as the cells compute them. *)
Definition sweep_code (speed : T → T) (dt dx : T) (s : list T) : list T :=
  swept (stencil speed dt dx) s.

Definition advance_code (speed : T → T) (dt dx : T) (steps : nat)
    (field : list T) : list T :=
  Nat.iter steps (sweep_code speed dt dx) field.

(** The specification's [advance], with its association
    [speed_fn(snapshot[i]) * (dt/dx)], in the arithmetic [T]. *)
Definition sweep_ref (speed_fn : T → T) (dt dx : T) (snapshot : list T)
  : list T :=
  imap (λ i x,
    if decide (i = 0)%nat then x
    else sub (snapshot !!! i)
           (mul (mul (speed_fn (snapshot !!! i)) (quot dt dx))
                (sub (snapshot !!! i) (snapshot !!! (i - 1)%nat)))) snapshot.

Definition advance_ref (speed_fn : T → T) (dt dx : T) (steps : nat)
    (field : list T) : list T :=
  Nat.iter steps (sweep_ref speed_fn dt dx) field.

Definition update_spec (F : list T → nat → T)
    (update : nat → nat → Z → M unit) : Prop :=
  ∀ (h : list (list T)) (u un : nat) (a s : list T) (i : nat),
    u ≠ un → h !! u = Some a → h !! un = Some s →
    length a = length s → (1 ≤ i < length s)%nat →
    update u un (Z.of_nat i) h = Ok (tt, <[u:=<[i:=F s i]> a]> h).

(** The initial condition on [nx] points, as [hat] above. *)
Definition hat (nx : Z) : list T :=
  (λ i : Z, if decide ((nx - 1) ÷ 4 ≤ i < (nx + 1) ÷ 2)
            then of_int 2 else of_int 1) <$> seqZ 0 nx.

End notebooks.
End Num.

(** ** Exact arithmetic *)

#[global] Instance exact_arith : Num.Arith Qc := {|
  Num.of_int z := Q2Qc (inject_Z z);
  Num.add := Qcplus;
  Num.sub := Qcminus;
  Num.mul := Qcmult;
  Num.quot := Qcdiv;
  Num.is_zero x := bool_decide (x = 0%Qc);
  Num.np_quot a b := if decide (b = 0%Qc) then Raise NonFinite else Ok (a / b)%Qc;
  Num.trunc x := Ok (int x)
|}.

(** ** Binary64 *)

Module F64.

Abbreviation float := PrimFloat.float (only parsing).

(** The conversion of a Python [int], correctly rounded. *)
Definition of_int (z : Z) : float :=
  FloatOps.SF2Prim (SpecFloat.binary_normalize FloatOps.prec FloatOps.emax z 0 false).

(** [x == 0.0]: true of both zeros, false of [nan]. *)
Definition is_zero (x : float) : bool := PrimFloat.eqb x PrimFloat.zero.

(** [int(x)]: the integer part; [int(inf)] is an [OverflowError] and
    [int(nan)] a [ValueError]. *)
Definition trunc (x : float) : result Z :=
  match FloatOps.Prim2SF x with
  | SpecFloat.S754_zero _ => Ok 0
  | SpecFloat.S754_finite s m e =>
      Ok (if s then - Z.shiftl (Z.pos m) e else Z.shiftl (Z.pos m) e)
  | SpecFloat.S754_infinity _ => Raise OverflowError
  | SpecFloat.S754_nan => Raise ValueError
  end.

(** numpy divides by zero without raising: the quotient is [inf] or [nan]
    (and a warning is printed). *)
#[global] Instance binary64 : Num.Arith float := {|
  Num.of_int := of_int;
  Num.add := PrimFloat.add;
  Num.sub := PrimFloat.sub;
  Num.mul := PrimFloat.mul;
  Num.quot := PrimFloat.div;
  Num.is_zero := is_zero;
  Num.np_quot a b := Ok (PrimFloat.div a b);
  Num.trunc := trunc
|}.

(** The float that the decimal literal for [n / d] denotes, when [n] and
    [d] convert without rounding, as the integers below [2^53] and the
    powers of ten up to [10^22] do: [.025] is [dec 1 40], [1e-17] is
    [dec 1 (10^17)]. *)
Definition dec (n : Z) (d : positive) : float :=
  PrimFloat.div (of_int n) (of_int (Z.pos d)).

(** Neither [inf] nor [nan]. *)
Definition finite (x : float) : bool :=
  match FloatOps.Prim2SF x with
  | SpecFloat.S754_zero _ | SpecFloat.S754_finite _ _ _ => true
  | _ => false
  end.

Definition is_nan (x : float) : bool :=
  match FloatOps.Prim2SF x with
  | SpecFloat.S754_nan => true
  | _ => false
  end.

(** The rational number that a finite float is. *)
Definition value (x : float) : option Q :=
  match FloatOps.Prim2SF x with
  | SpecFloat.S754_zero _ => Some 0%Q
  | SpecFloat.S754_finite s m e =>
      let n := if s then Z.neg m else Z.pos m in
      Some (Qred (match e with
                  | Z.neg p => n # (2 ^ p)
                  | _ => inject_Z (n * 2 ^ e)
                  end))
  | _ => None
  end.

(** [x == y] *)
Definition eq (x y : float) : Prop := PrimFloat.eqb x y = true.

(** The same float, or two zeros that differ by their sign. *)
Definition same (x y : float) : Prop :=
  x = y ∨ (is_zero x = true ∧ is_zero y = true).

(** The float [-0.0]. *)
Definition is_neg_zero (x : float) : bool :=
  match FloatOps.Prim2SF x with
  | SpecFloat.S754_zero true => true
  | _ => false
  end.

(** [0 < x] *)
Definition pos (x : float) : Prop := PrimFloat.ltb PrimFloat.zero x = true.


(** No difference of two neighbours overflows. *)
Fixpoint smooth (field : list float) : bool :=
  match field with
  | xl :: field' =>
      match field' with
      | x :: _ => finite (PrimFloat.sub x xl) && smooth field'
      | [] => true
      end
  | [] => true
  end.

(** Equality of two lists of floats, bit for bit. *)
Fixpoint list_eqb (l k : list float) : bool :=
  match l, k with
  | [], [] => true
  | x :: l', y :: k' => PrimFloat.Leibniz.eqb x y && list_eqb l' k'
  | _, _ => false
  end.

End F64.

(** ** Checks that are run

    [grid_as_hat nx]: the construction on [nx] points gives the spacing
    [2 / (nx-1)] and the field [hat nx].  [iterates_within sweep lo hi n s]:
    the fields [s], [sweep s], ..., up to the [n]-th iterate, have all
    their values in [[lo, hi]]. *)
Definition grid_as_hat (nx : Z) : bool :=
  match Num.construct (T:=F64.float) nx with
  | Ok (dx, u) =>
      PrimFloat.Leibniz.eqb dx (PrimFloat.div (F64.of_int 2) (F64.of_int (nx - 1)))
      && F64.list_eqb u (Num.hat nx)
  | Raise _ => false
  end.


(** ** Running the embedding *)

Example advance_linear_small :
  observe (fmap this)
    (advance_linear (qc 1 1) (qc 1 40) (qc 1 20) 2 [qc 1 1; qc 2 1; qc 1 1])
  = Some [1; 5 # 4; 3 # 2]%Q.
Proof. vm_compute. reflexivity. Qed.

Example advance_nonlinear_small :
  observe (fmap this)
    (advance_nonlinear (qc 1 40) (qc 1 20) 1 [qc 1 1; qc 2 1; qc 1 1])
  = Some [1; 1; 3 # 2]%Q.
Proof. vm_compute. reflexivity. Qed.

(** The initial condition that lesson 1 prints after cell 4. *)
Example lesson1_prints :
  observe (λ p, this <$> p.2) (construct 41)
  = Some (replicate 10 1 ++ replicate 11 2 ++ replicate 20 1)%Q.
Proof. vm_compute. reflexivity. Qed.

(** ** Monad and primitive lemmas *)

Lemma bind_ok {A B} (m : M A) (f : A → M B) h a h' :
  m h = Ok (a, h') → (m ≫= f) h = f a h'.
Proof. intros E. unfold mbind, M_bind. by rewrite E. Qed.

Lemma bind_raise {A B} (m : M A) (f : A → M B) h e :
  m h = Raise e → (m ≫= f) h = Raise e.
Proof. intros E. unfold mbind, M_bind. by rewrite E. Qed.

Lemma for_app {A} (l1 l2 : list A) body h :
  for_ (l1 ++ l2) body h = (for_ l1 body;; for_ l2 body) h.
Proof.
  revert h. induction l1 as [|x l1 IH]; intros h; simpl.
  - done.
  - unfold mbind, M_bind. destruct (body x h) as [[[] h1]|e]; [|done].
    apply IH.
Qed.

Lemma norm_index_nat (len i : nat) :
  (i < len)%nat → norm_index (Z.of_nat len) (Z.of_nat i) = Some i.
Proof.
  intros Hi. unfold norm_index.
  rewrite decide_True by lia. by rewrite Nat2Z.id.
Qed.

Lemma deref_ok h p a : h !! p = Some a → deref p h = Ok (a, h).
Proof. intros E. unfold deref. by rewrite E. Qed.

Lemma getitem_ok h p a (i : nat) x :
  h !! p = Some a → a !! i = Some x → getitem p (Z.of_nat i) h = Ok (x, h).
Proof.
  intros Hp Hi. unfold getitem.
  erewrite bind_ok by (by apply deref_ok).
  rewrite norm_index_nat by (by eapply lookup_lt_Some).
  change (Some i ≫= (a !!.)) with (a !! i). by rewrite Hi.
Qed.

Lemma setitem_ok h p a (i : nat) x :
  h !! p = Some a → (i < length a)%nat →
  setitem p (Z.of_nat i) x h = Ok (tt, <[p:=<[i:=x]> a]> h).
Proof.
  intros Hp Hi. unfold setitem.
  erewrite bind_ok by (by apply deref_ok).
  by rewrite norm_index_nat.
Qed.

Lemma getitem_total h p a (i : nat) :
  h !! p = Some a → (i < length a)%nat →
  getitem p (Z.of_nat i) h = Ok (a !!! i, h).
Proof.
  intros Hp Hi. eapply getitem_ok; [done|].
  by apply list_lookup_lookup_total_lt.
Qed.

Lemma linear_update_spec c dt dx :
  dx ≠ 0%Qc → update_spec (stencil (speed_const c) dt dx) (linear_update c dt dx).
Proof.
  intros Hdx h u un a s i Hne Hu Hun Hlen Hi. unfold linear_update.
  erewrite bind_ok by (eapply getitem_total; [done|lia]).
  erewrite bind_ok by (unfold pydiv; by rewrite decide_False).
  erewrite bind_ok by (eapply getitem_total; [done|lia]).
  replace (Z.of_nat i - 1) with (Z.of_nat (i - 1)) by lia.
  erewrite bind_ok by (eapply getitem_total; [done|lia]).
  rewrite (setitem_ok _ _ a) by (done || lia). done.
Qed.

Lemma nonlinear_update_spec dt dx :
  dx ≠ 0%Qc → update_spec (stencil speed_local dt dx) (nonlinear_update dt dx).
Proof.
  intros Hdx h u un a s i Hne Hu Hun Hlen Hi. unfold nonlinear_update.
  erewrite bind_ok by (eapply getitem_total; [done|lia]).
  erewrite bind_ok by (eapply getitem_total; [done|lia]).
  erewrite bind_ok by (unfold npdiv; by rewrite decide_False).
  erewrite bind_ok by (eapply getitem_total; [done|lia]).
  replace (Z.of_nat i - 1) with (Z.of_nat (i - 1)) by lia.
  erewrite bind_ok by (eapply getitem_total; [done|lia]).
  rewrite (setitem_ok _ _ a) by (done || lia). done.
Qed.

(** ** The inner loop, the sweep and the time loop *)

Lemma length_written F k s : length (written F k s) = length s.
Proof. apply length_imap. Qed.

Lemma lookup_written F k s i :
  written F k s !! i =
  (λ x, if decide (1 ≤ i ≤ k)%nat then F s i else x) <$> s !! i.
Proof. apply list_lookup_imap. Qed.

Lemma written_0 F s : written F 0 s = s.
Proof.
  apply list_eq; intros i. rewrite lookup_written.
  destruct (s !! i); [simpl|done]. by rewrite decide_False by lia.
Qed.

Lemma written_S F k s :
  (S k < length s)%nat →
  <[S k:=F s (S k)]> (written F k s) = written F (S k) s.
Proof.
  intros Hk. apply list_eq; intros i.
  destruct (decide (i = S k)) as [->|Hne].
  - rewrite list_lookup_insert_eq by (by rewrite length_written).
    rewrite lookup_written. destruct (lookup_lt_is_Some_2 s (S k) Hk) as [x ->].
    simpl. by rewrite decide_True by lia.
  - rewrite list_lookup_insert_ne by done. rewrite !lookup_written.
    destruct (s !! i); [simpl|done].
    destruct (decide (1 ≤ i ≤ k)%nat), (decide (1 ≤ i ≤ S k)%nat);
      done || lia.
Qed.

(** Loop invariant of [for i in range(1, nx)]: after the iterations
    [i = 1 .. k] the array [un] still holds the snapshot and [u] holds
    [written F k] of it. *)
Lemma inner_loop_prefix F update (h : heap) (u un : addr) (s : ndarray) k :
  update_spec F update →
  u ≠ un → h !! u = Some s → h !! un = Some s → (k < length s)%nat →
  for_ (range 1 (1 + Z.of_nat k)) (update u un) h
  = Ok (tt, <[u:=written F k s]> h).
Proof.
  intros Hupd Hne Hu Hun. unfold range.
  replace (1 + Z.of_nat k - 1) with (Z.of_nat k) by lia.
  induction k as [|k IH]; intros Hk.
  - simpl. rewrite written_0. by rewrite list_insert_id.
  - rewrite seqZ_S, for_app. erewrite bind_ok by (apply IH; lia).
    simpl. replace (1 + Z.of_nat k) with (Z.of_nat (S k)) by lia.
    erewrite bind_ok; last first.
    { apply (Hupd _ u un (written F k s) s); [done| | |apply length_written|lia].
      - apply list_lookup_insert_eq. by eapply lookup_lt_Some.
      - by rewrite list_lookup_insert_ne. }
    rewrite list_insert_insert_eq, written_S by done. done.
Qed.

Lemma copy_ok h p a : h !! p = Some a → copy p h = Ok (length h, h ++ [a]).
Proof. intros E. unfold copy. by erewrite bind_ok by (by apply deref_ok). Qed.

Lemma length_swept F s : length (swept F s) = length s.
Proof. apply length_written. Qed.

Lemma sweep_ok F update (h : heap) (u : addr) (s : ndarray) :
  update_spec F update → h !! u = Some s →
  sweep update (Z.of_nat (length s)) u h
  = Ok (tt, <[u:=swept F s]> (h ++ [s])).
Proof.
  intros Hupd Hu. unfold sweep.
  erewrite bind_ok by (by apply copy_ok).
  pose proof (lookup_lt_Some _ _ _ Hu) as Hlt.
  destruct s as [|x s].
  - simpl. rewrite list_insert_id; [done|]. by apply lookup_app_l_Some.
  - replace (Z.of_nat (length (x :: s)))
      with (1 + Z.of_nat (length (x :: s) - 1)) by (simpl; lia).
    apply inner_loop_prefix; [done|lia| | |simpl; lia].
    + by apply lookup_app_l_Some.
    + by apply list_lookup_middle.
Qed.

Lemma length_iter_swept F n a : length (Nat.iter n (swept F) a) = length a.
Proof. induction n as [|n IH]; simpl; [done|]. by rewrite length_swept. Qed.

Lemma time_loop_ok F update (n : nat) (h : heap) (u : addr) (a : ndarray) :
  update_spec F update → h !! u = Some a →
  ∃ h', time_loop update (Z.of_nat (length a)) (Z.of_nat n) u h = Ok (tt, h')
        ∧ h' !! u = Some (Nat.iter n (swept F) a)
        ∧ length h' = (length h + n)%nat.
Proof.
  intros Hupd Hu. unfold time_loop, range.
  replace (Z.of_nat n - 0) with (Z.of_nat n) by lia.
  induction n as [|n (h1 & E1 & Hu1 & Hl1)].
  - exists h. repeat split; [done|lia].
  - rewrite seqZ_S, for_app. erewrite bind_ok by done. simpl.
    rewrite <-(length_iter_swept F n a).
    erewrite bind_ok by (by eapply sweep_ok). eexists; split; [done|].
    pose proof (lookup_lt_Some _ _ _ Hu1). split.
    + apply list_lookup_insert_eq. rewrite length_app. lia.
    + rewrite length_insert, length_app. simpl. lia.
Qed.

Lemma ones_ok (n : nat) h :
  ones (Z.of_nat n) h = Ok (length h, h ++ [replicate n 1%Qc]).
Proof. unfold ones. rewrite decide_False by lia. by rewrite Nat2Z.id. Qed.

(** The placeholder allocation followed by the time loop, on any heap: the
    field after [n] sweeps, and one more array on the heap for the
    placeholder and for the snapshot of each sweep. *)
Lemma loop_ok F update (n : nat) (h : heap) (u : addr) (a : ndarray) :
  update_spec F update → h !! u = Some a →
  ∃ h', (ones (Z.of_nat (length a));;
         time_loop update (Z.of_nat (length a)) (Z.of_nat n) u) h
        = Ok (tt, h')
        ∧ h' !! u = Some (Nat.iter n (swept F) a)
        ∧ length h' = (length h + 1 + n)%nat.
Proof.
  intros Hupd Hu. erewrite bind_ok by apply ones_ok.
  destruct (time_loop_ok F update n (h ++ [replicate (length a) 1%Qc]) u a)
    as (h' & E & Hu' & Hl); [done|by apply lookup_app_l_Some|].
  exists h'. repeat split; [done..|]. rewrite Hl, length_app. simpl. lia.
Qed.

(** The stepper on a field, for an assignment that meets [update_spec]. *)
Lemma stepper_ok F update (n : nat) (field : ndarray) :
  update_spec F update →
  run (u ← alloc field;
       (ones (Z.of_nat (length field));;
        time_loop update (Z.of_nat (length field)) (Z.of_nat n) u);;
       deref u)
  = Ok (Nat.iter n (swept F) field)
  ∧ heap_size_after
      (u ← alloc field;
       (ones (Z.of_nat (length field));;
        time_loop update (Z.of_nat (length field)) (Z.of_nat n) u);;
       deref u)
    = Some (2 + n)%nat.
Proof.
  intros Hupd. unfold run, heap_size_after.
  erewrite bind_ok by reflexivity.
  destruct (loop_ok F update n ([] ++ [field]) 0%nat field Hupd eq_refl)
    as (h' & E & Hu & Hl).
  erewrite bind_ok by exact E.
  simpl. rewrite (deref_ok _ _ _ Hu). split; [done|]. by rewrite Hl.
Qed.

Lemma swept_stencil speed dt dx s :
  swept (stencil speed dt dx) s = sweep_ref speed dt dx s.
Proof.
  unfold swept, written, sweep_ref. apply list_eq; intros i.
  rewrite !list_lookup_imap.
  destruct (s !! i) as [x|] eqn:E; [simpl|done].
  apply lookup_lt_Some in E.
  destruct (decide (i = 0%nat)) as [->|Hi].
  - by rewrite decide_False by lia.
  - rewrite decide_True by lia. unfold stencil, stencil_value. f_equal.
    unfold Qcdiv. ring.
Qed.

Lemma iter_swept_ref speed dt dx n a :
  Nat.iter n (swept (stencil speed dt dx)) a = advance_ref speed dt dx n a.
Proof.
  unfold advance_ref. induction n as [|n IH]; simpl; [done|].
  by rewrite IH, swept_stencil.
Qed.

Lemma advance_linear_ok c dt dx (n : nat) field :
  dx ≠ 0%Qc →
  advance_linear c dt dx (Z.of_nat n) field
  = Ok (advance_ref (speed_const c) dt dx n field).
Proof.
  intros Hdx. rewrite <-iter_swept_ref.
  apply stepper_ok. by apply linear_update_spec.
Qed.

Lemma advance_nonlinear_ok dt dx (n : nat) field :
  dx ≠ 0%Qc →
  advance_nonlinear dt dx (Z.of_nat n) field
  = Ok (advance_ref speed_local dt dx n field).
Proof.
  intros Hdx. rewrite <-iter_swept_ref.
  apply stepper_ok. by apply nonlinear_update_spec.
Qed.

(** ** The reference sweep, index by index *)

Lemma length_sweep_ref speed dt dx s : length (sweep_ref speed dt dx s) = length s.
Proof. apply length_imap. Qed.

Lemma length_advance_ref speed dt dx n a :
  length (advance_ref speed dt dx n a) = length a.
Proof.
  unfold advance_ref. induction n as [|n IH]; simpl; [done|].
  by rewrite length_sweep_ref.
Qed.

Lemma sweep_ref_lookup_0 speed dt dx s : sweep_ref speed dt dx s !! 0%nat = s !! 0%nat.
Proof.
  unfold sweep_ref. rewrite list_lookup_imap.
  by destruct (s !! 0%nat).
Qed.

Lemma sweep_ref_lookup_interior speed dt dx s (i : nat) :
  (1 ≤ i < length s)%nat →
  sweep_ref speed dt dx s !! i
  = Some (s !!! i - speed (s !!! i) * (dt / dx) * (s !!! i - s !!! (i - 1)%nat))%Qc.
Proof.
  intros Hi. unfold sweep_ref. rewrite list_lookup_imap.
  destruct (lookup_lt_is_Some_2 s i) as [x ->]; [lia|].
  cbn [fmap option_fmap option_map]. by rewrite decide_False by lia.
Qed.

Lemma advance_ref_lookup_0 speed dt dx n a :
  advance_ref speed dt dx n a !! 0%nat = a !! 0%nat.
Proof.
  unfold advance_ref. induction n as [|n IH]; simpl; [done|].
  by rewrite sweep_ref_lookup_0.
Qed.

Lemma sweep_ref_speed_zero dt dx s : sweep_ref (speed_const 0%Qc) dt dx s = s.
Proof.
  apply list_eq; intros i. unfold sweep_ref. rewrite list_lookup_imap.
  destruct (s !! i) as [x|] eqn:E; [simpl|done]. f_equal.
  destruct (decide (i = 0%nat)); [done|].
  rewrite (list_lookup_total_correct _ _ _ E). unfold speed_const. ring.
Qed.

Lemma advance_ref_speed_zero dt dx n a : advance_ref (speed_const 0%Qc) dt dx n a = a.
Proof.
  unfold advance_ref. induction n as [|n IH]; simpl; [done|].
  by rewrite IH, sweep_ref_speed_zero.
Qed.

Lemma Qclt_not_eq_0 (x : Qc) : (0 < x)%Qc → x ≠ 0%Qc.
Proof. intros H ->. by apply (Qclt_not_eq 0%Qc 0%Qc). Qed.

(** With [nt <= 0] the time loop has no iteration, whatever the assignment. *)
Lemma stepper_zero update (nt : Z) (field : ndarray) :
  nt ≤ 0 →
  run (u ← alloc field;
       (ones (Z.of_nat (length field));;
        time_loop update (Z.of_nat (length field)) nt u);;
       deref u)
  = Ok field
  ∧ heap_size_after
      (u ← alloc field;
       (ones (Z.of_nat (length field));;
        time_loop update (Z.of_nat (length field)) nt u);;
       deref u)
    = Some 2%nat.
Proof.
  intros Hnt. unfold run, heap_size_after. erewrite bind_ok by reflexivity.
  erewrite bind_ok; last first.
  { erewrite bind_ok by apply ones_ok.
    unfold time_loop, range. rewrite seqZ_nil by lia. reflexivity. }
  done.
Qed.

Lemma linear_update_dx_zero c dt :
  update_raises ZeroDivisionError (linear_update c dt 0%Qc).
Proof.
  intros h u un s i Hun Hi. unfold linear_update.
  erewrite bind_ok by (by eapply getitem_total). done.
Qed.

Lemma nonlinear_update_dx_zero dt :
  update_raises NonFinite (nonlinear_update dt 0%Qc).
Proof.
  intros h u un s i Hun Hi. unfold nonlinear_update.
  erewrite bind_ok by (by eapply getitem_total).
  erewrite bind_ok by (by eapply getitem_total). done.
Qed.

(** Such an assignment stops the stepper in its first iteration. *)
Lemma stepper_raises e update (nt : Z) (field : ndarray) :
  update_raises e update → (2 ≤ length field)%nat → 0 < nt →
  run (u ← alloc field;
       (ones (Z.of_nat (length field));;
        time_loop update (Z.of_nat (length field)) nt u);;
       deref u)
  = Raise e.
Proof.
  intros Hupd Hlen Hnt. unfold run. erewrite bind_ok by reflexivity.
  erewrite bind_raise; [done|].
  erewrite bind_ok by apply ones_ok.
  unfold time_loop, range. rewrite seqZ_cons by lia. simpl.
  erewrite bind_raise; [done|]. unfold sweep.
  erewrite bind_ok by (by apply copy_ok).
  unfold range. rewrite seqZ_cons by lia. simpl.
  erewrite bind_raise; [done|].
  apply (Hupd _ _ _ field 1%nat); [|lia].
  change (length ([field] ++ [replicate (length field) 1%Qc]))
    with (length [field; replicate (length field) 1%Qc]).
  done.
Qed.

(** ** The boundary point and the empty run *)

(** C2. For a field of at least two points and any number of steps, both
    steppers return a field whose element 0 is element 0 of the input. *)
Theorem boundary_point_frozen (field : ndarray) (steps : nat) (c dt dx : Qc) :
  (2 ≤ length field)%nat → dx ≠ 0%Qc →
  (∃ r, advance_linear c dt dx (Z.of_nat steps) field = Ok r
        ∧ r !! 0%nat = field !! 0%nat)
  ∧ (∃ r, advance_nonlinear dt dx (Z.of_nat steps) field = Ok r
          ∧ r !! 0%nat = field !! 0%nat).
Proof.
  intros _ Hdx. split; eexists; split.
  - by apply advance_linear_ok.
  - apply advance_ref_lookup_0.
  - by apply advance_nonlinear_ok.
  - apply advance_ref_lookup_0.
Qed.

Lemma qc_1_20_nonzero : qc 1 20 ≠ 0%Qc.
Proof. apply Qclt_not_eq_0. reflexivity. Defined.

Lemma boundary_point_frozen_witness :
  let field := [qc 3 1; qc 2 1; qc 1 1] in
  (∃ r, advance_linear (qc 1 1) (qc 1 40) (qc 1 20) (Z.of_nat 5) field = Ok r
        ∧ r !! 0%nat = Some (qc 3 1))
  ∧ (∃ r, advance_nonlinear (qc 1 40) (qc 1 20) (Z.of_nat 5) field = Ok r
          ∧ r !! 0%nat = Some (qc 3 1)).
Proof.
  intros field.
  refine (boundary_point_frozen field 5 (qc 1 1) (qc 1 40) (qc 1 20) _ qc_1_20_nonzero).
  simpl. lia.
Defined.

(** C4. With [steps = 0] both steppers return the input field, and take
    no snapshot: the heap holds the field and the placeholder only. *)
Theorem zero_steps_identity (field : ndarray) (c dt dx : Qc) :
  advance_linear c dt dx 0 field = Ok field
  ∧ advance_nonlinear dt dx 0 field = Ok field
  ∧ heap_size_after (linear_stepper c dt dx 0 field) = Some 2%nat
  ∧ heap_size_after (nonlinear_stepper dt dx 0 field) = Some 2%nat.
Proof. repeat split; by apply stepper_zero. Qed.

(** ** Reads and writes of one sweep *)

Lemma sweep_prefix_ok speed dt dx update (h : heap) (u : addr) (s : ndarray) k :
  update_spec (stencil speed dt dx) update →
  h !! u = Some s → (k < length s)%nat →
  ∃ un h', sweep_prefix update k u h = Ok (un, h')
           ∧ mid_sweep speed dt dx k u s un h'.
Proof.
  intros Hupd Hu Hk. pose proof (lookup_lt_Some _ _ _ Hu) as Hlt.
  exists (length h), (<[u:=written (stencil speed dt dx) k s]> (h ++ [s])).
  split.
  - unfold sweep_prefix. erewrite bind_ok by (by apply copy_ok).
    erewrite bind_ok; [done|].
    apply inner_loop_prefix; [done|lia| | |done].
    + by apply lookup_app_l_Some.
    + by apply list_lookup_middle.
  - split; [lia|]. split.
    { rewrite list_lookup_insert_ne by lia. by apply list_lookup_middle. }
    eexists. split.
    { apply list_lookup_insert_eq. rewrite length_app. lia. }
    split; [apply length_written|]. split; intros i Hi.
    + rewrite lookup_written.
      destruct (lookup_lt_is_Some_2 s i) as [x ->]; [lia|].
      cbn [fmap option_fmap option_map]. by rewrite decide_True.
    + rewrite lookup_written. destruct (s !! i); [|done].
      cbn [fmap option_fmap option_map]. by rewrite decide_False.
Qed.

(** C3. In both steppers, at every point of a sweep ([k] iterations of the
    inner loop done), the array read by the assignment, [un], is distinct
    from the array written, [u], and still holds the field as it was at
    the start of the sweep; the value written at an index [i] is a function
    of the snapshot entries [i] and [i-1] alone. *)
Theorem sweep_reads_snapshot (h : heap) (u : addr) (s : ndarray) (k : nat)
    (c dt dx : Qc) :
  dx ≠ 0%Qc → h !! u = Some s → (k < length s)%nat →
  (∃ un h', sweep_prefix (linear_update c dt dx) k u h = Ok (un, h')
            ∧ mid_sweep (speed_const c) dt dx k u s un h')
  ∧ (∃ un h', sweep_prefix (nonlinear_update dt dx) k u h = Ok (un, h')
              ∧ mid_sweep speed_local dt dx k u s un h').
Proof.
  intros Hdx Hu Hk. split.
  - apply sweep_prefix_ok; [by apply linear_update_spec|done..].
  - apply sweep_prefix_ok; [by apply nonlinear_update_spec|done..].
Qed.

Lemma sweep_reads_snapshot_witness :
  let s := [qc 1 1; qc 2 1; qc 1 1] in
  (∃ un h', sweep_prefix (linear_update (qc 1 1) (qc 1 40) (qc 1 20)) 2 0%nat [s]
            = Ok (un, h')
            ∧ mid_sweep (speed_const (qc 1 1)) (qc 1 40) (qc 1 20) 2 0%nat s un h')
  ∧ (∃ un h', sweep_prefix (nonlinear_update (qc 1 40) (qc 1 20)) 2 0%nat [s]
              = Ok (un, h')
              ∧ mid_sweep speed_local (qc 1 40) (qc 1 20) 2 0%nat s un h').
Proof.
  intros s.
  refine (sweep_reads_snapshot [s] 0%nat s 2 (qc 1 1) (qc 1 40) (qc 1 20)
            qc_1_20_nonzero eq_refl _).
  simpl. lia.
Defined.

Remark copy_matters :
  let upd := linear_update (qc 1 1) (qc 1 40) (qc 1 20) in
  let s := [qc 1 1; qc 2 1; qc 1 1] in
  (observe (fmap this) (run (u ← alloc s; sweep upd 3 u;; deref u))
   = Some [1; 3 # 2; 3 # 2]%Q)
  ∧ (observe (fmap this) (run (u ← alloc s; sweep_aliased upd 3 u;; deref u))
     = Some [1; 3 # 2; 5 # 4]%Q).
Proof. split; vm_compute; reflexivity. Qed.

(** ** Array accesses stay in bounds *)

Lemma range_in_bounds (n : nat) (i : Z) :
  i ∈ range 1 (Z.of_nat n) →
  norm_index (Z.of_nat n) i = Some (Z.to_nat i)
  ∧ norm_index (Z.of_nat n) (i - 1) = Some (Z.to_nat (i - 1))
  ∧ 1 ≤ i < Z.of_nat n.
Proof.
  unfold range. rewrite elem_of_seqZ. intros Hi.
  unfold norm_index. rewrite !decide_True by lia. repeat split; lia.
Qed.

Lemma advance_linear_cases c dt dx nt field :
  (2 ≤ length field)%nat →
  (∃ r, advance_linear c dt dx nt field = Ok r)
  ∨ advance_linear c dt dx nt field = Raise ZeroDivisionError.
Proof.
  intros Hlen. destruct (decide (nt ≤ 0)) as [Hnt|Hnt].
  { left. exists field. by apply stepper_zero. }
  destruct (decide (dx = 0%Qc)) as [->|Hdx].
  - right. apply stepper_raises; [apply linear_update_dx_zero|done|lia].
  - left. rewrite <-(Z2Nat.id nt) by lia. eexists. by apply advance_linear_ok.
Qed.

Lemma advance_nonlinear_cases dt dx nt field :
  (2 ≤ length field)%nat →
  (∃ r, advance_nonlinear dt dx nt field = Ok r)
  ∨ advance_nonlinear dt dx nt field = Raise NonFinite.
Proof.
  intros Hlen. destruct (decide (nt ≤ 0)) as [Hnt|Hnt].
  { left. exists field. by apply stepper_zero. }
  destruct (decide (dx = 0%Qc)) as [->|Hdx].
  - right. apply stepper_raises; [apply nonlinear_update_dx_zero|done|lia].
  - left. rewrite <-(Z2Nat.id nt) by lia. eexists. by apply advance_nonlinear_ok.
Qed.

(** C9. For a field of [N >= 2] points, the inner loop visits only indices
    [i] with [1 <= i <= N-1], for which [i] and [i-1] are valid indices of
    an array of length [N]; and neither stepper ends in [IndexError],
    whatever the other parameters are. *)
Theorem accesses_in_bounds (field : ndarray) (nt : Z) (c dt dx : Qc) :
  (2 ≤ length field)%nat →
  (∀ i, i ∈ range 1 (Z.of_nat (length field)) →
        norm_index (Z.of_nat (length field)) i = Some (Z.to_nat i)
        ∧ norm_index (Z.of_nat (length field)) (i - 1) = Some (Z.to_nat (i - 1))
        ∧ 1 ≤ i < Z.of_nat (length field))
  ∧ advance_linear c dt dx nt field ≠ Raise IndexError
  ∧ advance_nonlinear dt dx nt field ≠ Raise IndexError.
Proof.
  intros Hlen. split; [intros i; apply range_in_bounds|]. split.
  - destruct (advance_linear_cases c dt dx nt field Hlen) as [[r ->]| ->]; done.
  - destruct (advance_nonlinear_cases dt dx nt field Hlen) as [[r ->]| ->]; done.
Qed.

Lemma accesses_in_bounds_witness :
  let field := [qc 1 1; qc 2 1; qc 1 1] in
  (∀ i, i ∈ range 1 3 →
        norm_index 3 i = Some (Z.to_nat i)
        ∧ norm_index 3 (i - 1) = Some (Z.to_nat (i - 1))
        ∧ 1 ≤ i < 3)
  ∧ advance_linear (qc 1 1) (qc 1 40) (qc 1 20) 4 field ≠ Raise IndexError
  ∧ advance_nonlinear (qc 1 40) (qc 1 20) 4 field ≠ Raise IndexError.
Proof.
  intros field.
  refine (accesses_in_bounds field 4 (qc 1 1) (qc 1 40) (qc 1 20) _).
  simpl. lia.
Defined.

(** The out-of-bounds branch is there: a loop bound [nx] larger than the
    array ends in [IndexError]. *)
Remark loop_bound_too_large :
  run (u ← alloc [qc 1 1; qc 2 1];
       step1_loop 3 1 (qc 1 1) (qc 1 40) (qc 1 20) u;;
       deref u)
  = Raise IndexError.
Proof. vm_compute. reflexivity. Qed.

(** ** The whole notebooks in terms of the stepper *)

Lemma Qc_this_inj (x y : Qc) : this x = this y → x = y.
Proof. intros E. apply Qc_is_canon. by rewrite E. Qed.

Lemma Q2Qc_inject_Z_nonzero (z : Z) : z ≠ 0 → Q2Qc (inject_Z z) ≠ 0%Qc.
Proof.
  intros Hz E. apply Q2Qc_eq_iff in E. unfold Qeq in E. simpl in E. lia.
Qed.

Lemma grid_spacing_41 h : grid_spacing 41 h = Ok (qc 1 20, h).
Proof.
  unfold grid_spacing, pydiv.
  rewrite decide_False by (by apply Q2Qc_inject_Z_nonzero).
  unfold mret, M_ret. do 2 f_equal. by apply Qc_this_inj.
Qed.

Lemma initial_condition_41 :
  initial_condition 41 (qc 1 20) [] = Ok (0%nat, [hat41]).
Proof. vm_compute. reflexivity. Qed.

Lemma construct_41 : construct 41 = Ok (qc 1 20, hat41).
Proof.
  unfold construct, run.
  erewrite bind_ok by apply grid_spacing_41.
  erewrite bind_ok by apply initial_condition_41.
  reflexivity.
Qed.

Lemma construct_inv nx dx u0 :
  construct nx = Ok (dx, u0) →
  ∃ h1 h2 u, grid_spacing nx [] = Ok (dx, h1)
             ∧ initial_condition nx dx h1 = Ok (u, h2)
             ∧ h2 !! u = Some u0.
Proof.
  unfold construct, run, mbind, M_bind, deref, mret, M_ret.
  destruct (grid_spacing nx []) as [[d h1]|]; [|done].
  destruct (initial_condition nx d h1) as [[u h2]|] eqn:E2; [|done].
  destruct (h2 !! u) eqn:E; [|done]. intros [= -> ->].
  by exists h1, h2, u.
Qed.

(** A notebook whose construction succeeds with a field of [nx] points
    runs the stepper on that field. *)
Lemma lesson_stepper F (update : Qc → addr → addr → Z → M unit) nx (n : nat)
    dx u0 :
  update_spec F (update dx) →
  construct nx = Ok (dx, u0) → Z.of_nat (length u0) = nx →
  run (d ← grid_spacing nx;
       u ← initial_condition nx d;
       (ones nx;; time_loop (update d) nx (Z.of_nat n) u);;
       deref u)
  = Ok (Nat.iter n (swept F) u0).
Proof.
  intros Hupd Hc Hnx. apply construct_inv in Hc as (h1 & h2 & u & E1 & E2 & Hu).
  unfold run. erewrite bind_ok by exact E1. erewrite bind_ok by exact E2.
  subst nx.
  destruct (loop_ok F (update dx) n h2 u u0 Hupd Hu) as (h' & E & Hu' & _).
  erewrite bind_ok by exact E. by rewrite (deref_ok _ _ _ Hu').
Qed.

Lemma lesson1_advance nx (n : nat) c dt dx u0 :
  construct nx = Ok (dx, u0) → Z.of_nat (length u0) = nx → dx ≠ 0%Qc →
  lesson1 nx (Z.of_nat n) c dt
  = Ok (advance_ref (speed_const c) dt dx n u0).
Proof.
  intros Hc Hnx Hdx. rewrite <-iter_swept_ref.
  apply (lesson_stepper _ (λ d, linear_update c dt d) nx n dx u0); [|done..].
  by apply linear_update_spec.
Qed.

Lemma lesson2_advance nx (n : nat) dt dx u0 :
  construct nx = Ok (dx, u0) → Z.of_nat (length u0) = nx → dx ≠ 0%Qc →
  lesson2 nx (Z.of_nat n) dt
  = Ok (advance_ref speed_local dt dx n u0).
Proof.
  intros Hc Hnx Hdx. rewrite <-iter_swept_ref.
  apply (lesson_stepper _ (λ d, nonlinear_update dt d) nx n dx u0); [|done..].
  by apply nonlinear_update_spec.
Qed.

(** ** The initial condition *)

(** C6. For [N = 41] points over [0, 2], [dx = 2/(N-1) = 1/20], the
    builder returns the field that is 2 at the indices [i] with
    [1/2 <= i * dx <= 1] and 1 at the others; these indices are 10 to 20. *)
Theorem hat_initial_condition :
  let dx := (qc 2 1 / Q2Qc (inject_Z (41 - 1)))%Qc in
  dx = qc 1 20
  ∧ construct 41
    = Ok (dx, (λ i : nat,
                 if decide (qc 1 2 ≤ Q2Qc (inject_Z (Z.of_nat i)) * dx ≤ qc 1 1)%Qc
                 then qc 2 1 else qc 1 1) <$> seq 0 41)
  ∧ ∀ i : nat,
      (qc 1 2 ≤ Q2Qc (inject_Z (Z.of_nat i)) * dx ≤ qc 1 1)%Qc
      ↔ (10 ≤ i ≤ 20)%nat.
Proof.
  intros dx. assert (Hdx : dx = qc 1 20) by (by apply Qc_this_inj).
  split; [done|]. rewrite Hdx. split.
  - rewrite construct_41. vm_compute. reflexivity.
  - intros i. unfold Qcle, Qcmult. simpl. rewrite !Qred_correct.
    unfold Qle. simpl. lia.
Qed.

(** ** Malformed grids *)

Lemma grid_spacing_ok nx h :
  nx ≠ 1 → grid_spacing nx h = Ok ((qc 2 1 / Q2Qc (inject_Z (nx - 1)))%Qc, h).
Proof.
  intros Hnx. unfold grid_spacing, pydiv.
  by rewrite decide_False by (apply Q2Qc_inject_Z_nonzero; lia).
Qed.

Lemma range_0_to_nat nt : range 0 nt = range 0 (Z.of_nat (Z.to_nat nt)).
Proof. unfold range, seqZ. by rewrite !Z.sub_0_r, Nat2Z.id. Qed.

Lemma lesson1_to_nat nx nt c dt :
  lesson1 nx nt c dt = lesson1 nx (Z.of_nat (Z.to_nat nt)) c dt.
Proof. unfold lesson1, step1_loop, time_loop. by rewrite range_0_to_nat. Qed.

Lemma lesson2_to_nat nx nt dt :
  lesson2 nx nt dt = lesson2 nx (Z.of_nat (Z.to_nat nt)) dt.
Proof. unfold lesson2, step2_loop, time_loop. by rewrite range_0_to_nat. Qed.

Lemma construct_0 : construct 0 = Ok (qc (-2) 1, []).
Proof.
  unfold construct, run.
  erewrite bind_ok by (by apply grid_spacing_ok).
  replace (qc 2 1 / Q2Qc (inject_Z (0 - 1)))%Qc with (qc (-2) 1)
    by (by apply Qc_this_inj).
  reflexivity.
Qed.

Lemma advance_ref_nil speed dt dx n : advance_ref speed dt dx n [] = [].
Proof. apply nil_length_inv. by rewrite length_advance_ref. Qed.

(** The claim C8 fails at [N = 0]: the construction raises nothing. *)
Lemma empty_grid_is_constructed :
  0 < 2 ∧ construct 0 = Ok (qc (-2) 1, []) ∧ ∀ e, construct 0 ≠ Raise e.
Proof. rewrite construct_0. by repeat split. Qed.

(** C8, amended. The notebooks do not validate the grid.  For [N = 1] the
    construction stops with [ZeroDivisionError] (from [dx = 2 / (nx-1)]);
    for [N < 0] with [ValueError] (from [numpy.ones]); for [N = 0] nothing
    is raised: [dx = -2], the field is empty, and both notebooks run to the
    end and leave it empty.  In no case is there an out-of-range access. *)
Theorem malformed_grid_outcomes (nx nt : Z) (c dt : Qc) :
  nx < 2 →
  (nx = 1 →
     construct nx = Raise ZeroDivisionError
     ∧ lesson1 nx nt c dt = Raise ZeroDivisionError
     ∧ lesson2 nx nt dt = Raise ZeroDivisionError)
  ∧ (nx < 0 →
       construct nx = Raise ValueError
       ∧ lesson1 nx nt c dt = Raise ValueError
       ∧ lesson2 nx nt dt = Raise ValueError)
  ∧ (nx = 0 →
       construct nx = Ok (qc (-2) 1, [])
       ∧ lesson1 nx nt c dt = Ok []
       ∧ lesson2 nx nt dt = Ok []).
Proof.
  intros _. split; [|split].
  - intros ->. done.
  - intros Hnx.
    assert (Hic : ∀ d h, initial_condition nx d h = Raise ValueError).
    { intros d h. unfold initial_condition. erewrite bind_raise; [done|].
      unfold ones. by rewrite decide_True. }
    repeat split.
    + unfold construct, run.
      erewrite bind_ok by (apply grid_spacing_ok; lia).
      by erewrite bind_raise by apply Hic.
    + unfold lesson1, run.
      erewrite bind_ok by (apply grid_spacing_ok; lia).
      by erewrite bind_raise by apply Hic.
    + unfold lesson2, run.
      erewrite bind_ok by (apply grid_spacing_ok; lia).
      by erewrite bind_raise by apply Hic.
  - intros ->. split; [apply construct_0|].
    assert (Hdx : qc (-2) 1 ≠ 0%Qc) by done.
    split.
    + rewrite lesson1_to_nat.
      rewrite (lesson1_advance 0 _ c dt _ _ construct_0 eq_refl Hdx).
      by rewrite advance_ref_nil.
    + rewrite lesson2_to_nat.
      rewrite (lesson2_advance 0 _ dt _ _ construct_0 eq_refl Hdx).
      by rewrite advance_ref_nil.
Qed.

Lemma malformed_grid_outcomes_witness :
  1 < 2 ∧ -3 < 2 ∧ 0 < 2
  ∧ (construct 1 = Raise ZeroDivisionError
     ∧ lesson1 1 25 (qc 1 1) (qc 1 40) = Raise ZeroDivisionError
     ∧ lesson2 1 25 (qc 1 40) = Raise ZeroDivisionError)
  ∧ (construct (-3) = Raise ValueError
     ∧ lesson1 (-3) 25 (qc 1 1) (qc 1 40) = Raise ValueError
     ∧ lesson2 (-3) 25 (qc 1 40) = Raise ValueError)
  ∧ (construct 0 = Ok (qc (-2) 1, [])
     ∧ lesson1 0 25 (qc 1 1) (qc 1 40) = Ok []
     ∧ lesson2 0 25 (qc 1 40) = Ok []).
Proof.
  assert (H1 : 1 < 2) by lia.
  assert (H2 : -3 < 2) by lia.
  assert (H3 : 0 < 2) by lia.
  split; [exact H1|]. split; [exact H2|]. split; [exact H3|].
  split; [|split].
  - destruct (malformed_grid_outcomes 1 25 (qc 1 1) (qc 1 40) H1) as (A & _ & _).
    exact (A eq_refl).
  - destruct (malformed_grid_outcomes (-3) 25 (qc 1 1) (qc 1 40) H2) as (_ & B & _).
    apply B. lia.
  - destruct (malformed_grid_outcomes 0 25 (qc 1 1) (qc 1 40) H3) as (_ & _ & C).
    exact (C eq_refl).
Defined.

(** ** The linear scenario of lesson 1 *)

Lemma observe_Some {A B} (f : A → B) (r : result A) (v : B) :
  observe f r = Some v → ∃ a, r = Ok a ∧ f a = v.
Proof. destruct r as [a|e]; [|done]. intros [= <-]. by exists a. Qed.

(** What the 25 steps of lesson 1 leave, as far as the edges go. *)
Lemma lesson1_scenario :
  ∃ r, lesson1_given = Ok r
       ∧ leading_edge r = Some 10%nat
       ∧ upper_edge r = Some 40%nat
       ∧ rising_half_height r = Some 23%nat
       ∧ falling_half_height r = Some 32%nat
       ∧ this <$> r !! 10%nat = Some (33554433 # 33554432)%Q.
Proof.
  assert (E : observe
    (λ r, (leading_edge r, upper_edge r, rising_half_height r,
           falling_half_height r, this <$> r !! 10%nat))
    lesson1_given
    = Some (Some 10%nat, Some 40%nat, Some 23%nat, Some 32%nat,
            Some (33554433 # 33554432)%Q)).
  { vm_compute. reflexivity. }
  apply observe_Some in E as (r & E & Hr).
  exists r. injection Hr as H1 H2 H3 H4 H5.
  exact (conj E (conj H1 (conj H2 (conj H3 (conj H4 H5))))).
Qed.

Lemma hat41_edges :
  leading_edge hat41 = Some 10%nat
  ∧ upper_edge hat41 = Some 20%nat
  ∧ rising_half_height hat41 = Some 10%nat
  ∧ falling_half_height hat41 = Some 20%nat.
Proof. repeat split; vm_compute; reflexivity. Qed.

(** The claim C7 fails as stated: after the 25 steps the transition from
    value 1 to values above 1 is where it was, at index 10, so it is not
    within 12 cells of a shift by 12.5 cells.  (Read from the right end
    instead, the last value above 1 has moved from index 20 to the last
    index, 40: 20 cells, not within 7 cells of 12.5.) *)
Lemma leading_edge_does_not_move :
  ∃ r, lesson1_given = Ok r
       ∧ leading_edge hat41 = Some 10%nat
       ∧ leading_edge r = Some 10%nat
       ∧ ¬ shifted_by_about leading_edge hat41 r (qc 25 2) (qc 12 1)
       ∧ ¬ shifted_by_about upper_edge hat41 r (qc 25 2) (qc 7 1).
Proof.
  destruct lesson1_scenario as (r & E & H1 & H1' & _).
  destruct hat41_edges as (H0 & H0' & _).
  exists r. split; [exact E|]. split; [exact H0|]. split; [exact H1|]. split.
  - intros (e0 & e1 & E0 & E1 & Hlo & _).
    rewrite H0 in E0. rewrite H1 in E1. injection E0 as <-. injection E1 as <-.
    revert Hlo. clear. vm_compute. intros H. by apply H.
  - intros (e0 & e1 & E0 & E1 & _ & Hhi).
    rewrite H0' in E0. rewrite H1' in E1. injection E0 as <-. injection E1 as <-.
    revert Hhi. clear. vm_compute. intros H. by apply H.
Qed.

(** C7, amended. In the linear scenario (41 points, hat initial condition,
    [c = 1], [dt = 1/40], 25 steps) the number of cells [c * steps * dt / dx]
    is 12.5.  Measured at half height (value 3/2), the rising edge moves
    from index 10 to index 23 and the falling edge from index 20 to index
    32, each within half a cell of 12.5.  The first index with a value
    above 1 stays at 10, and the value there is [1 + 2^-25], strictly
    between 1 and 2: the profile is not a rectangle.  The run of the
    notebook in binary64 gives these values exactly. *)
Theorem linear_scenario_profile :
  (qc 1 1 * qc 25 1 * qc 1 40 / qc 1 20 = qc 25 2)%Qc
  ∧ ∃ r, lesson1_given = Ok r
         ∧ rising_half_height hat41 = Some 10%nat
         ∧ rising_half_height r = Some 23%nat
         ∧ falling_half_height hat41 = Some 20%nat
         ∧ falling_half_height r = Some 32%nat
         ∧ shifted_by_about rising_half_height hat41 r (qc 25 2) (qc 1 2)
         ∧ shifted_by_about falling_half_height hat41 r (qc 25 2) (qc 1 2)
         ∧ leading_edge hat41 = Some 10%nat
         ∧ leading_edge r = Some 10%nat
         ∧ r !! 10%nat = Some (1 + qc 1 (2 ^ 25))%Qc
         ∧ (1 < 1 + qc 1 (2 ^ 25))%Qc
         ∧ (1 + qc 1 (2 ^ 25) < qc 2 1)%Qc
         ∧ observe (fmap F64.value)
             (Num.lesson1 41 25 (F64.of_int 1) (F64.dec 1 40))
           = Some ((λ x, Some (this x)) <$> r).
Proof.
  split; [by apply Qc_this_inj|].
  destruct lesson1_scenario as (r & E & H1 & _ & H2 & H3 & H4).
  destruct hat41_edges as (H0 & _ & H0r & H0f).
  assert (Hlo : (qc 25 2 - qc 1 2 ≤ Q2Qc (inject_Z 12))%Qc) by (clear; done).
  assert (Hhi : (Q2Qc (inject_Z 13) ≤ qc 25 2 + qc 1 2)%Qc) by (clear; done).
  assert (Hlo' : (qc 25 2 - qc 1 2 ≤ Q2Qc (inject_Z 13))%Qc) by (clear; done).
  assert (Hhi' : (Q2Qc (inject_Z 12) ≤ qc 25 2 + qc 1 2)%Qc) by (clear; done).
  assert (Hf : observe (fmap F64.value)
                 (Num.lesson1 41 25 (F64.of_int 1) (F64.dec 1 40))
               = observe (fmap (λ x, Some (this x))) lesson1_given).
  { clear. vm_compute. reflexivity. }
  assert (Hx : r !! 10%nat = Some (1 + qc 1 (2 ^ 25))%Qc).
  { clear -H4. destruct (r !! 10%nat) as [x|]; [|discriminate H4].
    injection H4 as H4. f_equal. apply Qc_this_inj. rewrite H4. reflexivity. }
  exists r. split; [exact E|].
  split; [exact H0r|]. split; [exact H2|].
  split; [exact H0f|]. split; [exact H3|]. split; [|split].
  - exists 10%nat, 23%nat. split; [exact H0r|]. split; [exact H2|].
    split; [exact Hlo'|exact Hhi].
  - exists 20%nat, 32%nat. split; [exact H0f|]. split; [exact H3|].
    split; [exact Hlo|exact Hhi'].
  - split; [exact H0|]. split; [exact H1|]. split; [exact Hx|].
    split; [clear; reflexivity|]. split; [clear; reflexivity|].
    rewrite Hf, E. reflexivity.
Qed.

(** ** The discrete maximum principle in exact arithmetic *)

Lemma Q_convex (k x xl lo hi : Q) :
  (0 <= k → k <= 1 → lo <= x → x <= hi → lo <= xl → xl <= hi →
   lo <= x + - (k * (x + - xl)) <= hi)%Q.
Proof. intros. split; nra. Qed.

Lemma Qc_convex (k x xl lo hi : Qc) :
  (0 ≤ k)%Qc → (k ≤ 1)%Qc → (lo ≤ x)%Qc → (x ≤ hi)%Qc →
  (lo ≤ xl)%Qc → (xl ≤ hi)%Qc →
  (lo ≤ x - k * (x - xl))%Qc ∧ (x - k * (x - xl) ≤ hi)%Qc.
Proof.
  unfold Qcle. intros H0 H1 Hx1 Hx2 Hl1 Hl2.
  unfold Qcminus, Qcplus, Qcmult, Qcopp. simpl.
  rewrite !Qred_correct. by apply Q_convex.
Qed.





(** One reference sweep keeps the values within the bounds of the
    snapshot. *)
Lemma sweep_ref_bounds speed dt dx lo hi s :
  courant_ok speed dt dx s →
  Forall (λ x, (lo ≤ x)%Qc ∧ (x ≤ hi)%Qc) s →
  Forall (λ y, (lo ≤ y)%Qc ∧ (y ≤ hi)%Qc) (sweep_ref speed dt dx s).
Proof.
  intros Hk Hs. apply Forall_lookup. intros i y Hy.
  destruct (decide (i = 0%nat)) as [->|Hi0].
  - rewrite sweep_ref_lookup_0 in Hy.
    exact (Forall_lookup_1 _ s 0%nat y Hs Hy).
  - pose proof (lookup_lt_Some _ _ _ Hy) as Hi.
    rewrite length_sweep_ref in Hi.
    rewrite sweep_ref_lookup_interior in Hy by lia. injection Hy as <-.
    destruct (Hk i ltac:(lia)) as [Hk0 Hk1].
    replace (speed (s !!! i) * (dt / dx))%Qc
      with (speed (s !!! i) * dt / dx)%Qc by (unfold Qcdiv; ring).
    assert (Hx : (lo ≤ s !!! i)%Qc ∧ (s !!! i ≤ hi)%Qc).
    { apply (Forall_lookup_1 _ s i (s !!! i) Hs).
      apply list_lookup_lookup_total_lt. lia. }
    assert (Hxl : (lo ≤ s !!! (i - 1)%nat)%Qc ∧ (s !!! (i - 1)%nat ≤ hi)%Qc).
    { apply (Forall_lookup_1 _ s (i - 1)%nat (s !!! (i - 1)%nat) Hs).
      apply list_lookup_lookup_total_lt. lia. }
    destruct Hx, Hxl. by apply Qc_convex.
Qed.

Lemma courant_ok_const c dt dx s :
  (0 ≤ c * dt / dx)%Qc → (c * dt / dx ≤ 1)%Qc →
  courant_ok (speed_const c) dt dx s.
Proof. intros H0 H1 i _. by split. Qed.

Lemma advance_ref_linear_bounds c dt dx lo hi n a :
  (0 ≤ c * dt / dx)%Qc → (c * dt / dx ≤ 1)%Qc →
  Forall (λ x, (lo ≤ x)%Qc ∧ (x ≤ hi)%Qc) a →
  Forall (λ y, (lo ≤ y)%Qc ∧ (y ≤ hi)%Qc) (advance_ref (speed_const c) dt dx n a).
Proof.
  intros H0 H1 Ha. unfold advance_ref. induction n as [|n IH]; simpl; [done|].
  apply sweep_ref_bounds; [by apply courant_ok_const|done].
Qed.



(** * Further properties of the steppers *)

(** ** Degenerate inputs *)

Lemma sweep_short update (h : heap) (u : addr) (s : ndarray) :
  h !! u = Some s → (length s ≤ 1)%nat →
  sweep update (Z.of_nat (length s)) u h = Ok (tt, h ++ [s]).
Proof.
  intros Hu Hs. unfold sweep. erewrite bind_ok by (by apply copy_ok).
  unfold range. by rewrite seqZ_nil by lia.
Qed.

Lemma time_loop_short update (n : nat) (h : heap) (u : addr) (s : ndarray) :
  h !! u = Some s → (length s ≤ 1)%nat →
  ∃ h', time_loop update (Z.of_nat (length s)) (Z.of_nat n) u h = Ok (tt, h')
        ∧ h' !! u = Some s.
Proof.
  intros Hu Hs. unfold time_loop, range.
  replace (Z.of_nat n - 0) with (Z.of_nat n) by lia.
  induction n as [|n (h1 & E1 & Hu1)].
  - by exists h.
  - rewrite seqZ_S, for_app. erewrite bind_ok by done. simpl.
    erewrite bind_ok by (by apply sweep_short). eexists; split; [done|].
    by apply lookup_app_l_Some.
Qed.

Lemma stepper_short update (nt : Z) (field : ndarray) :
  (length field ≤ 1)%nat →
  run (u ← alloc field;
       (ones (Z.of_nat (length field));;
        time_loop update (Z.of_nat (length field)) nt u);;
       deref u)
  = Ok field.
Proof.
  intros Hs. destruct (decide (nt ≤ 0)) as [Hnt|Hnt].
  { by apply stepper_zero. }
  rewrite <-(Z2Nat.id nt) by lia. unfold run. erewrite bind_ok by reflexivity.
  destruct (time_loop_short update (Z.to_nat nt)
              ([field] ++ [replicate (length field) 1%Qc]) 0%nat field eq_refl Hs)
    as (h' & E & Hu).
  erewrite bind_ok; last first.
  { erewrite bind_ok by apply ones_ok. exact E. }
  simpl. by rewrite (deref_ok _ _ _ Hu).
Qed.

(** X1. On a field of at most one point both steppers return the field as
    it is, for every step count and all of [c], [dt], [dx] (also [dx = 0]):
    [range(1, nx)] is empty, so no entry is read and nothing is divided. *)
Theorem short_field_unchanged (field : ndarray) (nt : Z) (c dt dx : Qc) :
  (length field ≤ 1)%nat →
  advance_linear c dt dx nt field = Ok field
  ∧ advance_nonlinear dt dx nt field = Ok field.
Proof. intros Hs. split; by apply stepper_short. Qed.

Lemma short_field_unchanged_witness :
  (length [qc 7 3] ≤ 1)%nat
  ∧ advance_linear (qc 1 1) (qc 1 40) 0%Qc 25 [qc 7 3] = Ok [qc 7 3]
  ∧ advance_nonlinear (qc 1 40) 0%Qc 25 [qc 7 3] = Ok [qc 7 3].
Proof.
  assert (H : (length [qc 7 3] ≤ 1)%nat) by (simpl; lia).
  split; [exact H|].
  exact (short_field_unchanged [qc 7 3] 25 (qc 1 1) (qc 1 40) 0%Qc H).
Defined.

(** X2. A step count [nt <= 0], negative ones included, makes
    [range(nt)] empty: both steppers return the field as it is. *)
Theorem nonpositive_steps_unchanged (field : ndarray) (nt : Z) (c dt dx : Qc) :
  nt ≤ 0 →
  advance_linear c dt dx nt field = Ok field
  ∧ advance_nonlinear dt dx nt field = Ok field.
Proof. intros Hnt. split; by apply stepper_zero. Qed.

Lemma nonpositive_steps_unchanged_witness :
  -3 ≤ 0
  ∧ advance_linear (qc 1 1) (qc 1 40) (qc 1 20) (-3) [qc 1 1; qc 2 1] = Ok [qc 1 1; qc 2 1]
  ∧ advance_nonlinear (qc 1 40) (qc 1 20) (-3) [qc 1 1; qc 2 1] = Ok [qc 1 1; qc 2 1].
Proof.
  assert (H : -3 ≤ 0) by lia. split; [exact H|].
  exact (nonpositive_steps_unchanged [qc 1 1; qc 2 1] (-3) (qc 1 1) (qc 1 40) (qc 1 20) H).
Defined.

(** X3. With [dx = 0] the linear stepper stops with [ZeroDivisionError]
    as soon as there is an assignment to run, that is for a field of at
    least two points and at least one step. *)
Theorem zero_spacing_raises (field : ndarray) (nt : Z) (c dt : Qc) :
  (2 ≤ length field)%nat → 0 < nt →
  advance_linear c dt 0%Qc nt field = Raise ZeroDivisionError.
Proof.
  intros Hlen Hnt. apply stepper_raises; [apply linear_update_dx_zero|done..].
Qed.

Lemma zero_spacing_raises_witness :
  (2 ≤ length [qc 1 1; qc 2 1])%nat ∧ 0 < 1
  ∧ advance_linear (qc 1 1) (qc 1 40) 0%Qc 1 [qc 1 1; qc 2 1]
    = Raise ZeroDivisionError.
Proof.
  assert (H1 : (2 ≤ length [qc 1 1; qc 2 1])%nat) by (simpl; lia).
  assert (H2 : 0 < 1) by lia.
  split; [exact H1|]. split; [exact H2|].
  exact (zero_spacing_raises [qc 1 1; qc 2 1] 1 (qc 1 1) (qc 1 40) H1 H2).
Defined.

(** ** Shape and composition *)

(** X4. Both steppers return a field with as many points as the input. *)
Theorem advance_preserves_length (field : ndarray) (steps : nat) (c dt dx : Qc) :
  dx ≠ 0%Qc →
  (∃ r, advance_linear c dt dx (Z.of_nat steps) field = Ok r
        ∧ length r = length field)
  ∧ (∃ r, advance_nonlinear dt dx (Z.of_nat steps) field = Ok r
          ∧ length r = length field).
Proof.
  intros Hdx. split; eexists; split.
  - by apply advance_linear_ok.
  - apply length_advance_ref.
  - by apply advance_nonlinear_ok.
  - apply length_advance_ref.
Qed.

Lemma advance_preserves_length_witness :
  let field := [qc 1 1; qc 2 1; qc 1 1] in
  (∃ r, advance_linear (qc 1 1) (qc 1 40) (qc 1 20) (Z.of_nat 4) field = Ok r
        ∧ length r = 3%nat)
  ∧ (∃ r, advance_nonlinear (qc 1 40) (qc 1 20) (Z.of_nat 4) field = Ok r
          ∧ length r = 3%nat).
Proof.
  intros field.
  exact (advance_preserves_length field 4 (qc 1 1) (qc 1 40) (qc 1 20) qc_1_20_nonzero).
Defined.

Lemma advance_ref_add speed dt dx n m a :
  advance_ref speed dt dx (n + m) a
  = advance_ref speed dt dx m (advance_ref speed dt dx n a).
Proof.
  unfold advance_ref. rewrite Nat.add_comm. apply Nat.iter_add.
Qed.

(** X5. Running a stepper for [n + m] steps is running it for [n] steps
    and then for [m] steps on the result. *)
Theorem advance_composes (field : ndarray) (n m : nat) (c dt dx : Qc) :
  dx ≠ 0%Qc →
  (∃ r, advance_linear c dt dx (Z.of_nat n) field = Ok r
        ∧ advance_linear c dt dx (Z.of_nat (n + m)) field
          = advance_linear c dt dx (Z.of_nat m) r)
  ∧ (∃ r, advance_nonlinear dt dx (Z.of_nat n) field = Ok r
          ∧ advance_nonlinear dt dx (Z.of_nat (n + m)) field
            = advance_nonlinear dt dx (Z.of_nat m) r).
Proof.
  intros Hdx. split; eexists; split.
  - by apply advance_linear_ok.
  - rewrite !advance_linear_ok by done. by rewrite advance_ref_add.
  - by apply advance_nonlinear_ok.
  - rewrite !advance_nonlinear_ok by done. by rewrite advance_ref_add.
Qed.

Lemma advance_composes_witness :
  let field := [qc 1 1; qc 2 1; qc 1 1] in
  (∃ r, advance_linear (qc 1 1) (qc 1 40) (qc 1 20) (Z.of_nat 2) field = Ok r
        ∧ advance_linear (qc 1 1) (qc 1 40) (qc 1 20) (Z.of_nat (2 + 3)) field
          = advance_linear (qc 1 1) (qc 1 40) (qc 1 20) (Z.of_nat 3) r)
  ∧ (∃ r, advance_nonlinear (qc 1 40) (qc 1 20) (Z.of_nat 2) field = Ok r
          ∧ advance_nonlinear (qc 1 40) (qc 1 20) (Z.of_nat (2 + 3)) field
            = advance_nonlinear (qc 1 40) (qc 1 20) (Z.of_nat 3) r).
Proof.
  intros field.
  exact (advance_composes field 2 3 (qc 1 1) (qc 1 40) (qc 1 20) qc_1_20_nonzero).
Defined.

(** ** The direction of propagation *)

Lemma sweep_ref_local speed dt dx (f g : ndarray) (i : nat) :
  f !! i = g !! i → f !! (i - 1)%nat = g !! (i - 1)%nat →
  sweep_ref speed dt dx f !! i = sweep_ref speed dt dx g !! i.
Proof.
  intros Hi Hi1. unfold sweep_ref. rewrite !list_lookup_imap.
  rewrite !list_lookup_total_alt, <-Hi, <-Hi1. done.
Qed.

Lemma advance_ref_local speed dt dx (n : nat) :
  ∀ (f g : ndarray) (i : nat),
    (∀ j, (i - n ≤ j ≤ i)%nat → f !! j = g !! j) →
    advance_ref speed dt dx n f !! i = advance_ref speed dt dx n g !! i.
Proof.
  unfold advance_ref. induction n as [|n IH]; intros f g i H; simpl.
  - apply H. lia.
  - apply sweep_ref_local; apply IH; intros j Hj; apply H; lia.
Qed.

(** X7. After [steps] steps the value at index [i] is determined by the
    input entries [i - steps .. i] alone: two fields that agree there give
    the same value at [i], whatever they hold to the right of [i] or
    further to the left.  Nothing travels against the stream. *)
Theorem domain_of_dependence (f g : ndarray) (steps i : nat) (c dt dx : Qc) :
  dx ≠ 0%Qc →
  (∀ j, (i - steps ≤ j ≤ i)%nat → f !! j = g !! j) →
  (∃ rf rg, advance_linear c dt dx (Z.of_nat steps) f = Ok rf
            ∧ advance_linear c dt dx (Z.of_nat steps) g = Ok rg
            ∧ rf !! i = rg !! i)
  ∧ (∃ rf rg, advance_nonlinear dt dx (Z.of_nat steps) f = Ok rf
              ∧ advance_nonlinear dt dx (Z.of_nat steps) g = Ok rg
              ∧ rf !! i = rg !! i).
Proof.
  intros Hdx H. split.
  - exists (advance_ref (speed_const c) dt dx steps f),
           (advance_ref (speed_const c) dt dx steps g).
    split; [by apply advance_linear_ok|]. split; [by apply advance_linear_ok|].
    by apply advance_ref_local.
  - exists (advance_ref speed_local dt dx steps f),
           (advance_ref speed_local dt dx steps g).
    split; [by apply advance_nonlinear_ok|].
    split; [by apply advance_nonlinear_ok|].
    by apply advance_ref_local.
Qed.

Lemma domain_of_dependence_witness :
  let f := [qc 5 1; qc 1 1; qc 2 1; qc 1 1; qc 9 1] in
  let g := [qc 0 1; qc 1 1; qc 2 1; qc 1 1; qc 4 1] in
  (∃ rf rg, advance_linear (qc 1 1) (qc 1 40) (qc 1 20) (Z.of_nat 2) f = Ok rf
            ∧ advance_linear (qc 1 1) (qc 1 40) (qc 1 20) (Z.of_nat 2) g = Ok rg
            ∧ rf !! 3%nat = rg !! 3%nat)
  ∧ (∃ rf rg, advance_nonlinear (qc 1 40) (qc 1 20) (Z.of_nat 2) f = Ok rf
              ∧ advance_nonlinear (qc 1 40) (qc 1 20) (Z.of_nat 2) g = Ok rg
              ∧ rf !! 3%nat = rg !! 3%nat).
Proof.
  intros f g.
  refine (domain_of_dependence f g 2 3 (qc 1 1) (qc 1 40) (qc 1 20)
            qc_1_20_nonzero _).
  intros [|[|[|[|j]]]] Hj; simpl in Hj; try lia; reflexivity.
Defined.

(** ** Bounds over many steps *)

Lemma Q_scale_bounds (x lo hi r : Q) :
  (0 <= lo → lo <= x → x <= hi → 0 <= r → hi * r <= 1 →
   0 <= x * r ∧ x * r <= 1)%Q.
Proof. intros. split; nra. Qed.

Lemma Qc_scale_bounds (x lo hi r : Qc) :
  (0 ≤ lo)%Qc → (lo ≤ x)%Qc → (x ≤ hi)%Qc → (0 ≤ r)%Qc → (hi * r ≤ 1)%Qc →
  (0 ≤ x * r)%Qc ∧ (x * r ≤ 1)%Qc.
Proof.
  unfold Qcle, Qcmult. simpl. rewrite !Qred_correct. apply Q_scale_bounds.
Qed.

Lemma courant_ok_local dt dx lo hi s :
  (0 ≤ lo)%Qc → (0 ≤ dt / dx)%Qc → (hi * dt / dx ≤ 1)%Qc →
  Forall (λ x, (lo ≤ x)%Qc ∧ (x ≤ hi)%Qc) s →
  courant_ok speed_local dt dx s.
Proof.
  intros Hlo Hr Hhi Hs i Hi. unfold speed_local.
  destruct (Forall_lookup_1 _ s i (s !!! i) Hs) as [H1 H2].
  { apply list_lookup_lookup_total_lt. lia. }
  replace (s !!! i * dt / dx)%Qc with (s !!! i * (dt / dx))%Qc
    by (unfold Qcdiv; ring).
  apply (Qc_scale_bounds _ lo hi); [done..|].
  replace (hi * (dt / dx))%Qc with (hi * dt / dx)%Qc by (unfold Qcdiv; ring).
  done.
Qed.

Lemma advance_ref_local_bounds dt dx lo hi n a :
  (0 ≤ lo)%Qc → (0 ≤ dt / dx)%Qc → (hi * dt / dx ≤ 1)%Qc →
  Forall (λ x, (lo ≤ x)%Qc ∧ (x ≤ hi)%Qc) a →
  Forall (λ y, (lo ≤ y)%Qc ∧ (y ≤ hi)%Qc) (advance_ref speed_local dt dx n a).
Proof.
  intros Hlo Hr Hhi Ha. unfold advance_ref.
  induction n as [|n IH]; simpl; [done|].
  apply sweep_ref_bounds; [|done]. by apply (courant_ok_local dt dx lo hi).
Qed.

(** ** Transport by whole cells *)

Lemma advance_ref_shift c dt dx (n : nat) (s : ndarray) :
  (c * dt / dx = 1)%Qc →
  ∀ i, (i < length s)%nat →
       advance_ref (speed_const c) dt dx n s !! i = s !! (i - n)%nat.
Proof.
  intros Hk. induction n as [|n IH]; intros i Hi.
  - by rewrite Nat.sub_0_r.
  - change (advance_ref ?sp dt dx (S n) ?x)
      with (sweep_ref sp dt dx (advance_ref sp dt dx n x)).
    destruct (decide (i = 0%nat)) as [->|Hi0].
    + rewrite sweep_ref_lookup_0. apply (IH 0%nat Hi).
    + rewrite sweep_ref_lookup_interior by (rewrite length_advance_ref; lia).
      replace (i - S n)%nat with (i - 1 - n)%nat by lia.
      rewrite <-IH by lia.
      rewrite (list_lookup_lookup_total_lt _ (i - 1))
        by (rewrite length_advance_ref; lia).
      f_equal. unfold speed_const.
      replace (c * (dt / dx))%Qc with (c * dt / dx)%Qc by (unfold Qcdiv; ring).
      rewrite Hk. ring.
Qed.

(** ** The grid and the initial condition in exact arithmetic *)

Lemma int_Q2Qc (a : Z) (b : positive) : int (Q2Qc (a # b)) = a ÷ Z.pos b.
Proof.
  unfold int. simpl.
  pose proof (Qred_correct (a # b)) as E. unfold Qeq in E. simpl in E.
  set (n := Qnum (Qred (a # b))) in *. set (d := Qden (Qred (a # b))) in *.
  rewrite <-(Z.quot_mul_cancel_r n (Z.pos d) (Z.pos b)) by done.
  rewrite E, (Z.mul_comm (Z.pos d)).
  by rewrite Z.quot_mul_cancel_r.
Qed.

Lemma inject_Z_nonzero (z : Z) : z ≠ 0 → ¬ (inject_Z z == 0)%Q.
Proof. intros Hz. unfold Qeq. simpl. lia. Qed.

Lemma grid_dx (nx : Z) :
  2 ≤ nx →
  (qc 2 1 / Q2Qc (inject_Z (nx - 1)))%Qc = Q2Qc (2 # Z.to_pos (nx - 1)).
Proof.
  intros Hnx. apply Qc_is_canon.
  unfold Qcdiv, Qcmult, Qcinv, qc. simpl. rewrite !Qred_correct.
  rewrite (Qmake_Qdiv 2 (Z.to_pos (nx - 1))), Z2Pos.id by lia.
  reflexivity.
Qed.

Lemma grid_dx_pos (nx : Z) :
  2 ≤ nx → (0 < qc 2 1 / Q2Qc (inject_Z (nx - 1)))%Qc.
Proof.
  intros Hnx. rewrite grid_dx by done.
  unfold Qclt. cbn [this Q2Qc]. rewrite !Qred_correct. reflexivity.
Qed.

Lemma half_over_dx (nx : Z) :
  2 ≤ nx →
  (qc 1 2 / (qc 2 1 / Q2Qc (inject_Z (nx - 1))))%Qc = Q2Qc ((nx - 1) # 4).
Proof.
  intros Hnx. apply Qc_is_canon.
  unfold Qcdiv, Qcmult, Qcinv, qc. simpl. rewrite !Qred_correct.
  rewrite (Qmake_Qdiv (nx - 1) 4).
  pose proof (inject_Z_nonzero (nx - 1) ltac:(lia)).
  field. done.
Qed.

Lemma one_over_dx_plus_one (nx : Z) :
  2 ≤ nx →
  (qc 1 1 / (qc 2 1 / Q2Qc (inject_Z (nx - 1))) + qc 1 1)%Qc
  = Q2Qc ((nx + 1) # 2).
Proof.
  intros Hnx. apply Qc_is_canon.
  unfold Qcdiv, Qcmult, Qcinv, Qcplus, qc. simpl. rewrite !Qred_correct.
  rewrite (Qmake_Qdiv (nx + 1) 2).
  pose proof (inject_Z_nonzero (nx - 1) ltac:(lia)).
  replace (nx + 1) with ((nx - 1) + 2) by lia. rewrite inject_Z_plus.
  field. done.
Qed.

Lemma length_fill (x : Qc) (l : list Z) (a : ndarray) :
  length (foldr (λ j acc, <[Z.to_nat j:=x]> acc) a l) = length a.
Proof. induction l as [|j l IH]; simpl; [done|]. by rewrite length_insert. Qed.

(** A slice assignment writes the indices of its range and no other. *)
Lemma lookup_fill (x : Qc) (l : list Z) (a : ndarray) (i : nat) :
  (∀ j, j ∈ l → 0 ≤ j) → (i < length a)%nat →
  foldr (λ j acc, <[Z.to_nat j:=x]> acc) a l !! i
  = Some (if decide (Z.of_nat i ∈ l) then x else a !!! i).
Proof.
  intros Hl Hi. induction l as [|j l IH]; cbn [foldr].
  - rewrite decide_False by apply not_elem_of_nil.
    by apply list_lookup_lookup_total_lt.
  - assert (Hj : 0 ≤ j) by (apply Hl; left).
    destruct (decide (i = Z.to_nat j)) as [->|Hne].
    + rewrite list_lookup_insert_eq by (by rewrite length_fill).
      rewrite decide_True; [done|]. rewrite Z2Nat.id by done. left.
    + rewrite list_lookup_insert_ne by done.
      rewrite IH by (intros k Hk; apply Hl; by right).
      f_equal. destruct (decide (Z.of_nat i ∈ l)) as [Hin|Hin].
      * rewrite decide_True; [done|]. by right.
      * rewrite decide_False; [done|].
        intros [E|Hin']%elem_of_cons; [lia|done].
Qed.

Lemma ones_Z_ok (n : Z) h :
  0 ≤ n → ones n h = Ok (length h, h ++ [replicate (Z.to_nat n) 1%Qc]).
Proof. intros Hn. unfold ones. by rewrite decide_False by lia. Qed.

Lemma initial_condition_ok (nx : Z) :
  2 ≤ nx →
  initial_condition nx (qc 2 1 / Q2Qc (inject_Z (nx - 1)))%Qc []
  = Ok (0%nat, [hat nx]).
Proof.
  intros Hnx. unfold initial_condition.
  erewrite bind_ok by (by apply ones_Z_ok; lia).
  pose proof (Qclt_not_eq_0 _ (grid_dx_pos nx Hnx)) as Hdx.
  erewrite bind_ok by (unfold pydiv; by rewrite decide_False).
  erewrite bind_ok by (unfold pydiv; by rewrite decide_False).
  rewrite half_over_dx, one_over_dx_plus_one, !int_Q2Qc by done.
  unfold setslice. erewrite bind_ok by reflexivity.
  unfold mbind, M_bind, store, mret, M_ret. simpl. do 3 f_equal.
  rewrite length_replicate, Z2Nat.id by lia.
  assert (Hq : 0 ≤ (nx - 1) ÷ 4 < nx ∧ 0 ≤ (nx + 1) ÷ 2 ≤ nx)
    by (Z.to_euclidean_division_equations; lia).
  unfold clamp_index. rewrite !decide_False by lia.
  rewrite !Z.min_r, !Z.max_r by lia.
  apply list_eq; intros i. unfold hat. rewrite list_lookup_fmap.
  destruct (decide (Z.of_nat i < nx)) as [Hi|Hi].
  - rewrite lookup_fill; [|unfold range; intros j Hj%elem_of_seqZ; lia
                          |rewrite length_replicate; lia].
    rewrite lookup_seqZ_lt by done. simpl. f_equal.
    rewrite list_lookup_total_alt, lookup_replicate_2 by lia. simpl.
    unfold range.
    destruct (decide ((nx - 1) ÷ 4 ≤ 0 + Z.of_nat i < (nx + 1) ÷ 2)) as [H|H].
    + rewrite decide_True; [done|]. apply elem_of_seqZ. lia.
    + rewrite decide_False; [done|]. rewrite elem_of_seqZ. lia.
  - rewrite lookup_seqZ_ge by lia. simpl. apply lookup_ge_None.
    rewrite length_fill, length_replicate. lia.
Qed.

Lemma length_hat (nx : Z) : length (hat nx) = Z.to_nat nx.
Proof. unfold hat. by rewrite length_fmap, length_seqZ. Qed.

Lemma construct_ok (nx : Z) :
  2 ≤ nx →
  construct nx = Ok ((qc 2 1 / Q2Qc (inject_Z (nx - 1)))%Qc, hat nx).
Proof.
  intros Hnx. unfold construct, run.
  erewrite bind_ok by (apply grid_spacing_ok; lia).
  erewrite bind_ok by (by apply initial_condition_ok).
  reflexivity.
Qed.

(** ** The loop over all indices *)

Lemma getitem_left h p (s : ndarray) (i : nat) :
  h !! p = Some s → (i < length s)%nat →
  getitem p (Z.of_nat i - 1) h = Ok (s !!! left_neighbour (length s) i, h).
Proof.
  intros Hp Hi. unfold left_neighbour. destruct (decide (i = 0%nat)) as [->|Hi0].
  - unfold getitem. erewrite bind_ok by (by apply deref_ok).
    unfold norm_index. rewrite decide_False, decide_True by lia.
    replace (Z.to_nat (Z.of_nat 0 - 1 + Z.of_nat (length s)))
      with (length s - 1)%nat by lia.
    change (Some (length s - 1)%nat ≫= (s !!.)) with (s !! (length s - 1)%nat).
    by rewrite (list_lookup_lookup_total_lt s (length s - 1)) by lia.
  - replace (Z.of_nat i - 1) with (Z.of_nat (i - 1)) by lia.
    apply getitem_total; [done|lia].
Qed.

Lemma linear_update_spec_all c dt dx :
  dx ≠ 0%Qc → update_spec_all (stencil_ring c dt dx) (linear_update c dt dx).
Proof.
  intros Hdx h u un a s i Hne Hu Hun Hlen Hi. unfold linear_update.
  erewrite bind_ok by (eapply getitem_total; [done|lia]).
  erewrite bind_ok by (unfold pydiv; by rewrite decide_False).
  erewrite bind_ok by (eapply getitem_total; [done|lia]).
  erewrite bind_ok by (by eapply getitem_left).
  rewrite (setitem_ok _ _ a) by (done || lia). done.
Qed.

Lemma length_written_all F k s : length (written_all F k s) = length s.
Proof. apply length_imap. Qed.

Lemma lookup_written_all F k s i :
  written_all F k s !! i
  = (λ x, if decide (i < k)%nat then F s i else x) <$> s !! i.
Proof. apply list_lookup_imap. Qed.

Lemma written_all_0 F s : written_all F 0 s = s.
Proof.
  apply list_eq; intros i. rewrite lookup_written_all.
  destruct (s !! i); [|done]. cbn [fmap option_fmap option_map].
  by rewrite decide_False by lia.
Qed.

Lemma written_all_S F k s :
  (k < length s)%nat →
  <[k:=F s k]> (written_all F k s) = written_all F (S k) s.
Proof.
  intros Hk. apply list_eq; intros i.
  destruct (decide (i = k)) as [->|Hne].
  - rewrite list_lookup_insert_eq by (by rewrite length_written_all).
    rewrite lookup_written_all. destruct (lookup_lt_is_Some_2 s k Hk) as [x ->].
    cbn [fmap option_fmap option_map]. by rewrite decide_True by lia.
  - rewrite list_lookup_insert_ne by done. rewrite !lookup_written_all.
    destruct (s !! i); [|done]. cbn [fmap option_fmap option_map].
    destruct (decide (i < k)%nat), (decide (i < S k)%nat); done || lia.
Qed.

Lemma inner_loop_all F update (h : heap) (u un : addr) (s : ndarray) k :
  update_spec_all F update →
  u ≠ un → h !! u = Some s → h !! un = Some s → (k ≤ length s)%nat →
  for_ (range 0 (Z.of_nat k)) (update u un) h
  = Ok (tt, <[u:=written_all F k s]> h).
Proof.
  intros Hupd Hne Hu Hun. unfold range. rewrite Z.sub_0_r.
  induction k as [|k IH]; intros Hk.
  - simpl. rewrite written_all_0. by rewrite list_insert_id.
  - rewrite seqZ_S, for_app. erewrite bind_ok by (apply IH; lia).
    simpl. erewrite bind_ok; last first.
    { apply (Hupd _ u un (written_all F k s) s);
        [done| | |apply length_written_all|lia].
      - apply list_lookup_insert_eq. by eapply lookup_lt_Some.
      - by rewrite list_lookup_insert_ne. }
    rewrite list_insert_insert_eq, written_all_S by done. done.
Qed.

Lemma sweep_all_ok F update (h : heap) (u : addr) (s : ndarray) :
  update_spec_all F update → h !! u = Some s →
  sweep_all update (Z.of_nat (length s)) u h
  = Ok (tt, <[u:=written_all F (length s) s]> (h ++ [s])).
Proof.
  intros Hupd Hu. unfold sweep_all.
  erewrite bind_ok by (by apply copy_ok).
  pose proof (lookup_lt_Some _ _ _ Hu) as Hlt.
  apply inner_loop_all; [done|lia| | |done].
  - by apply lookup_app_l_Some.
  - by apply list_lookup_middle.
Qed.

Lemma written_all_ring c dt dx s :
  written_all (stencil_ring c dt dx) (length s) s = sweep_ring c dt dx s.
Proof.
  apply list_eq; intros i. unfold sweep_ring. rewrite lookup_written_all.
  rewrite list_lookup_imap. destruct (s !! i) as [x|] eqn:E; [|done].
  cbn [fmap option_fmap option_map].
  rewrite decide_True by (by eapply lookup_lt_Some).
  unfold stencil_ring. by rewrite (list_lookup_total_correct _ _ _ E).
Qed.

Lemma length_sweep_ring c dt dx s : length (sweep_ring c dt dx s) = length s.
Proof. apply length_imap. Qed.

Lemma length_iter_sweep_ring c dt dx n a :
  length (Nat.iter n (sweep_ring c dt dx) a) = length a.
Proof. induction n as [|n IH]; simpl; [done|]. by rewrite length_sweep_ring. Qed.

Lemma time_loop_all_ok c dt dx (n : nat) (h : heap) (u : addr) (a : ndarray) :
  dx ≠ 0%Qc → h !! u = Some a →
  ∃ h', time_loop_all (linear_update c dt dx) (Z.of_nat (length a)) (Z.of_nat n) u h
        = Ok (tt, h')
        ∧ h' !! u = Some (Nat.iter n (sweep_ring c dt dx) a).
Proof.
  intros Hdx Hu. unfold time_loop_all, range. rewrite Z.sub_0_r.
  induction n as [|n (h1 & E1 & Hu1)].
  - by exists h.
  - rewrite seqZ_S, for_app. erewrite bind_ok by done. simpl.
    rewrite <-(length_iter_sweep_ring c dt dx n a).
    erewrite bind_ok
      by (eapply sweep_all_ok; [by apply linear_update_spec_all|done]).
    eexists; split; [done|]. rewrite written_all_ring.
    apply list_lookup_insert_eq. rewrite length_app.
    apply lookup_lt_Some in Hu1. lia.
Qed.

Lemma advance_linear_all_ok c dt dx (n : nat) (field : ndarray) :
  dx ≠ 0%Qc →
  advance_linear_all c dt dx (Z.of_nat n) field
  = Ok (Nat.iter n (sweep_ring c dt dx) field).
Proof.
  intros Hdx. unfold advance_linear_all, run.
  erewrite bind_ok by reflexivity.
  destruct (time_loop_all_ok c dt dx n
              ([field] ++ [replicate (length field) 1%Qc]) 0%nat field Hdx eq_refl)
    as (h' & E & Hu).
  erewrite bind_ok; last first.
  { erewrite bind_ok by apply ones_ok. exact E. }
  simpl. by rewrite (deref_ok _ _ _ Hu).
Qed.

(** X19. With [for i in range(nx)] in place of [for i in range(1, nx)]
    the linear loop still never leaves the array, for a field of any
    length: at [i = 0] it reads [un[-1]], the last entry.  Every step is
    the upwind sweep on a ring, so entry 0 is no longer kept: after one
    step it is [u[0] - c * dt / dx * (u[0] - u[N-1])]. *)
Theorem loop_over_all_indices_wraps (field : ndarray) (steps : nat) (c dt dx : Qc) :
  dx ≠ 0%Qc →
  advance_linear_all c dt dx (Z.of_nat steps) field
  = Ok (Nat.iter steps (sweep_ring c dt dx) field)
  ∧ (∀ x0, field !! 0%nat = Some x0 →
       sweep_ring c dt dx field !! 0%nat
       = Some (x0 - c * dt / dx * (x0 - field !!! (length field - 1)%nat))%Qc).
Proof.
  intros Hdx. split; [by apply advance_linear_all_ok|].
  intros x0 H0. unfold sweep_ring. rewrite list_lookup_imap, H0. done.
Qed.

Lemma loop_over_all_indices_wraps_witness :
  let field := [qc 1 1; qc 2 1; qc 3 1] in
  advance_linear_all (qc 1 1) (qc 1 40) (qc 1 20) (Z.of_nat 2) field
  = Ok (Nat.iter 2 (sweep_ring (qc 1 1) (qc 1 40) (qc 1 20)) field)
  ∧ (∀ x0, field !! 0%nat = Some x0 →
       sweep_ring (qc 1 1) (qc 1 40) (qc 1 20) field !! 0%nat
       = Some (x0 - qc 1 1 * qc 1 40 / qc 1 20 * (x0 - field !!! (length field - 1)%nat))%Qc).
Proof.
  intros field.
  exact (loop_over_all_indices_wraps field 2 (qc 1 1) (qc 1 40) (qc 1 20)
           qc_1_20_nonzero).
Defined.

Example loop_over_all_indices_small :
  observe (fmap this)
    (advance_linear_all (qc 1 1) (qc 1 40) (qc 1 20) 1 [qc 1 1; qc 2 1; qc 3 1])
  = Some [2; 3 # 2; 5 # 2]%Q.
Proof. vm_compute. reflexivity. Qed.

(** ** Lesson 1 on 81 points *)

(** X21. Lesson 1 after its first experiment ("try changing this number
    from 41 to 81"): with [nx = 81] the spacing [dx] equals [dt = .025],
    the Courant number is 1, and for every number [nt] of time steps the
    result is the initial hat moved [nt] cells to the right, unchanged in
    shape: entry [i] is the initial entry [i - nt] (entry 0 for
    [i < nt]). *)
Theorem lesson1_81_points_shifts (nt i : nat) :
  (i < 81)%nat →
  ∃ dx r, construct 81 = Ok (dx, hat 81) ∧ dx = qc 1 40
          ∧ lesson1 81 (Z.of_nat nt) (qc 1 1) (qc 1 40) = Ok r
          ∧ r !! i = hat 81 !! (i - nt)%nat.
Proof.
  intros Hi.
  assert (Hdx : (qc 2 1 / Q2Qc (inject_Z (81 - 1)))%Qc = qc 1 40)
    by (by apply Qc_this_inj).
  assert (Hc : construct 81 = Ok (qc 1 40, hat 81))
    by (rewrite <-Hdx; apply construct_ok; lia).
  assert (Hn : qc 1 40 ≠ 0%Qc) by done.
  exists (qc 1 40). eexists. split; [exact Hc|]. split; [done|]. split.
  - apply (lesson1_advance 81 nt _ _ _ _ Hc); [|done].
    rewrite length_hat. reflexivity.
  - apply advance_ref_shift; [by apply Qc_this_inj|].
    rewrite length_hat. simpl. lia.
Qed.

Lemma lesson1_81_points_shifts_witness :
  (50 < 81)%nat
  ∧ ∃ dx r, construct 81 = Ok (dx, hat 81) ∧ dx = qc 1 40
            ∧ lesson1 81 (Z.of_nat 25) (qc 1 1) (qc 1 40) = Ok r
            ∧ r !! 50%nat = hat 81 !! (50 - 25)%nat.
Proof.
  assert (H : (50 < 81)%nat) by lia. split; [exact H|].
  exact (lesson1_81_points_shifts 25 50 H).
Defined.

(** ** Grid sizes for which the notebooks stay in range *)

Lemma hat_bounds (nx : Z) : Forall (λ x, (1 ≤ x)%Qc ∧ (x ≤ qc 2 1)%Qc) (hat nx).
Proof.
  apply Forall_lookup. intros i x. unfold hat. rewrite list_lookup_fmap.
  destruct (seqZ 0 nx !! i) as [j|]; [|done]. intros [= <-].
  by case_decide.
Qed.

Lemma courant_of_grid (nx : Z) (k : positive) :
  2 ≤ nx →
  (0 ≤ qc 1 k / (qc 2 1 / Q2Qc (inject_Z (nx - 1))))%Qc
  ∧ (nx - 1 ≤ 2 * Z.pos k →
     (qc 1 k / (qc 2 1 / Q2Qc (inject_Z (nx - 1))) ≤ 1)%Qc).
Proof.
  intros Hnx. rewrite grid_dx by done.
  assert (Hp : Z.pos (Z.to_pos (nx - 1)) = nx - 1) by (apply Z2Pos.id; lia).
  set (p := Z.to_pos (nx - 1)) in *.
  unfold Qcle, Qcdiv, Qcmult, Qcinv. cbn [this Q2Qc qc].
  rewrite !Qred_correct. unfold Qle, Qmult, Qinv. cbn [Qnum Qden].
  rewrite ?Pos2Z.inj_mul. split; [lia|]. intros H. simpl. lia.
Qed.

(** X11. With [dt = .025] as published, and for every number of time
    steps: lesson 1 ([c = 1]) ends with all values in [1, 2] on every grid
    of [2 <= nx <= 81] points, and lesson 2 on every grid of
    [2 <= nx <= 41] points.  These are the grids on which the largest
    Courant number, [c * dt / dx] and [2 * dt / dx], is at most 1. *)
Theorem lessons_stay_in_range (nx : Z) (nt : nat) :
  2 ≤ nx →
  (nx ≤ 81 →
   ∃ r, lesson1 nx (Z.of_nat nt) (qc 1 1) (qc 1 40) = Ok r
        ∧ Forall (λ y, (1 ≤ y)%Qc ∧ (y ≤ qc 2 1)%Qc) r)
  ∧ (nx ≤ 41 →
     ∃ r, lesson2 nx (Z.of_nat nt) (qc 1 40) = Ok r
          ∧ Forall (λ y, (1 ≤ y)%Qc ∧ (y ≤ qc 2 1)%Qc) r).
Proof.
  intros Hnx.
  pose proof (construct_ok nx Hnx) as Hc.
  pose proof (Qclt_not_eq_0 _ (grid_dx_pos nx Hnx)) as Hdx.
  assert (Hlen : Z.of_nat (length (hat nx)) = nx) by (rewrite length_hat; lia).
  split; intros Hmax; eexists; split.
  - by apply (lesson1_advance nx nt _ _ _ _ Hc).
  - destruct (courant_of_grid nx 40 Hnx) as [H0 H1].
    apply advance_ref_linear_bounds; [| |apply hat_bounds].
    + by replace (qc 1 1 * qc 1 40)%Qc with (qc 1 40) by (by apply Qc_this_inj).
    + replace (qc 1 1 * qc 1 40)%Qc with (qc 1 40) by (by apply Qc_this_inj).
      apply H1. lia.
  - by apply (lesson2_advance nx nt _ _ _ Hc).
  - destruct (courant_of_grid nx 40 Hnx) as [H0 _].
    destruct (courant_of_grid nx 20 Hnx) as [_ H1].
    apply advance_ref_local_bounds; [done|done| |apply hat_bounds].
    replace (qc 2 1 * qc 1 40)%Qc with (qc 1 20) by (by apply Qc_this_inj).
    apply H1. lia.
Qed.

Lemma lessons_stay_in_range_witness :
  2 ≤ 41
  ∧ (∃ r, lesson1 41 (Z.of_nat 25) (qc 1 1) (qc 1 40) = Ok r
          ∧ Forall (λ y, (1 ≤ y)%Qc ∧ (y ≤ qc 2 1)%Qc) r)
  ∧ (∃ r, lesson2 41 (Z.of_nat 20) (qc 1 40) = Ok r
          ∧ Forall (λ y, (1 ≤ y)%Qc ∧ (y ≤ qc 2 1)%Qc) r).
Proof.
  assert (H : 2 ≤ 41) by lia. split; [exact H|]. split.
  - destruct (lessons_stay_in_range 41 25 H) as [A _]. apply A. lia.
  - destruct (lessons_stay_in_range 41 20 H) as [_ B]. apply B. lia.
Defined.

(** On 42 points lesson 2 leaves the range [1, 2] in its first step. *)
Remark lesson2_42_points_undershoots :
  observe (λ r, this <$> r !! 10%nat) (lesson2 42 1 (qc 1 40))
  = Some (Some (39 # 40)%Q).
Proof. vm_compute. reflexivity. Qed.

(** * The notebooks over any arithmetic: the loops *)

Section num_loops.
Context {T : Type} {arith : Num.Arith T}.

Implicit Types (h : list (list T)) (a s field : list T) (u un p : nat).

Lemma num_bind_ok {A B} (m : Num.M A) (f : A → Num.M B) h x h' :
  m h = Ok (x, h') → (m ≫= f) h = f x h'.
Proof. intros E. unfold mbind, Num.M_bind. by rewrite E. Qed.

Lemma num_bind_inv {A B} (m : Num.M A) (f : A → Num.M B) h y h'' :
  (m ≫= f) h = Ok (y, h'') → ∃ x h', m h = Ok (x, h') ∧ f x h' = Ok (y, h'').
Proof.
  unfold mbind, Num.M_bind. destruct (m h) as [[x h']|e]; [|done].
  intros E. by exists x, h'.
Qed.

Lemma num_for_app {A} (l1 l2 : list A) body h :
  Num.for_ (l1 ++ l2) body h = (Num.for_ l1 body;; Num.for_ l2 body) h.
Proof.
  revert h. induction l1 as [|x l1 IH]; intros h; simpl.
  - done.
  - unfold mbind, Num.M_bind. destruct (body x h) as [[[] h1]|e]; [|done].
    apply IH.
Qed.

Lemma num_deref_ok h p a : h !! p = Some a → Num.deref p h = Ok (a, h).
Proof. intros E. unfold Num.deref. by rewrite E. Qed.

Lemma num_getitem_total h p a (i : nat) :
  h !! p = Some a → (i < length a)%nat →
  Num.getitem p (Z.of_nat i) h = Ok (a !!! i, h).
Proof.
  intros Hp Hi. unfold Num.getitem.
  erewrite num_bind_ok by (by apply num_deref_ok).
  rewrite norm_index_nat by done.
  change (Some i ≫= (a !!.)) with (a !! i).
  by rewrite (list_lookup_lookup_total_lt a i Hi).
Qed.

Lemma num_setitem_ok h p a (i : nat) x :
  h !! p = Some a → (i < length a)%nat →
  Num.setitem p (Z.of_nat i) x h = Ok (tt, <[p:=<[i:=x]> a]> h).
Proof.
  intros Hp Hi. unfold Num.setitem.
  erewrite num_bind_ok by (by apply num_deref_ok).
  by rewrite norm_index_nat.
Qed.

(** The two assignments store the stencil of the cell. *)
Lemma num_linear_update_spec c dt dx :
  Num.is_zero dx = false →
  Num.update_spec (Num.stencil (Num.speed_const c) dt dx)
    (Num.linear_update c dt dx).
Proof.
  intros Hdx h u un a s i Hne Hu Hun Hlen Hi. unfold Num.linear_update.
  erewrite num_bind_ok by (eapply num_getitem_total; [done|lia]).
  erewrite num_bind_ok by (unfold Num.pydiv; by rewrite Hdx).
  erewrite num_bind_ok by (eapply num_getitem_total; [done|lia]).
  replace (Z.of_nat i - 1) with (Z.of_nat (i - 1)) by lia.
  erewrite num_bind_ok by (eapply num_getitem_total; [done|lia]).
  rewrite (num_setitem_ok _ _ a) by (done || lia). done.
Qed.

Lemma num_nonlinear_update_spec dt dx :
  (∀ x, Num.np_quot x dx = Ok (Num.quot x dx)) →
  Num.update_spec (Num.stencil Num.speed_local dt dx)
    (Num.nonlinear_update dt dx).
Proof.
  intros Hdx h u un a s i Hne Hu Hun Hlen Hi. unfold Num.nonlinear_update.
  erewrite num_bind_ok by (eapply num_getitem_total; [done|lia]).
  erewrite num_bind_ok by (eapply num_getitem_total; [done|lia]).
  erewrite num_bind_ok by (unfold Num.npdiv, Num.lift; by rewrite Hdx).
  erewrite num_bind_ok by (eapply num_getitem_total; [done|lia]).
  replace (Z.of_nat i - 1) with (Z.of_nat (i - 1)) by lia.
  erewrite num_bind_ok by (eapply num_getitem_total; [done|lia]).
  rewrite (num_setitem_ok _ _ a) by (done || lia). done.
Qed.

Lemma num_length_written F k s : length (Num.written F k s) = length s.
Proof. apply length_imap. Qed.

Lemma num_lookup_written F k s i :
  Num.written F k s !! i =
  (λ x, if decide (1 ≤ i ≤ k)%nat then F s i else x) <$> s !! i.
Proof. apply list_lookup_imap. Qed.

Lemma num_written_0 F s : Num.written F 0 s = s.
Proof.
  apply list_eq; intros i. rewrite num_lookup_written.
  destruct (s !! i); [simpl|done]. by rewrite decide_False by lia.
Qed.

Lemma num_written_S F k s :
  (S k < length s)%nat →
  <[S k:=F s (S k)]> (Num.written F k s) = Num.written F (S k) s.
Proof.
  intros Hk. apply list_eq; intros i.
  destruct (decide (i = S k)) as [->|Hne].
  - rewrite list_lookup_insert_eq by (by rewrite num_length_written).
    rewrite num_lookup_written.
    destruct (lookup_lt_is_Some_2 s (S k) Hk) as [x ->].
    simpl. by rewrite decide_True by lia.
  - rewrite list_lookup_insert_ne by done. rewrite !num_lookup_written.
    destruct (s !! i); [simpl|done].
    destruct (decide (1 ≤ i ≤ k)%nat), (decide (1 ≤ i ≤ S k)%nat);
      done || lia.
Qed.

Lemma num_inner_loop_prefix F update h u un s k :
  Num.update_spec F update →
  u ≠ un → h !! u = Some s → h !! un = Some s → (k < length s)%nat →
  Num.for_ (range 1 (1 + Z.of_nat k)) (update u un) h
  = Ok (tt, <[u:=Num.written F k s]> h).
Proof.
  intros Hupd Hne Hu Hun. unfold range.
  replace (1 + Z.of_nat k - 1) with (Z.of_nat k) by lia.
  induction k as [|k IH]; intros Hk.
  - simpl. rewrite num_written_0. by rewrite list_insert_id.
  - rewrite seqZ_S, num_for_app. erewrite num_bind_ok by (apply IH; lia).
    simpl. replace (1 + Z.of_nat k) with (Z.of_nat (S k)) by lia.
    erewrite num_bind_ok; last first.
    { apply (Hupd _ u un (Num.written F k s) s);
        [done| | |apply num_length_written|lia].
      - apply list_lookup_insert_eq. by eapply lookup_lt_Some.
      - by rewrite list_lookup_insert_ne. }
    rewrite list_insert_insert_eq, num_written_S by done. done.
Qed.

Lemma num_copy_ok h p a :
  h !! p = Some a → Num.copy p h = Ok (length h, h ++ [a]).
Proof.
  intros E. unfold Num.copy. by erewrite num_bind_ok by (by apply num_deref_ok).
Qed.

Lemma num_length_swept F s : length (Num.swept F s) = length s.
Proof. apply num_length_written. Qed.

Lemma num_sweep_ok F update h u s :
  Num.update_spec F update → h !! u = Some s →
  Num.sweep update (Z.of_nat (length s)) u h
  = Ok (tt, <[u:=Num.swept F s]> (h ++ [s])).
Proof.
  intros Hupd Hu. unfold Num.sweep.
  erewrite num_bind_ok by (by apply num_copy_ok).
  pose proof (lookup_lt_Some _ _ _ Hu) as Hlt.
  destruct s as [|x s].
  - simpl. rewrite list_insert_id; [done|]. by apply lookup_app_l_Some.
  - replace (Z.of_nat (length (x :: s)))
      with (1 + Z.of_nat (length (x :: s) - 1)) by (simpl; lia).
    apply num_inner_loop_prefix; [done|lia| | |simpl; lia].
    + by apply lookup_app_l_Some.
    + by apply list_lookup_middle.
Qed.

Lemma num_length_iter_swept F n a :
  length (Nat.iter n (Num.swept F) a) = length a.
Proof. induction n as [|n IH]; simpl; [done|]. by rewrite num_length_swept. Qed.

Lemma num_time_loop_ok F update (n : nat) h u a :
  Num.update_spec F update → h !! u = Some a →
  ∃ h', Num.time_loop update (Z.of_nat (length a)) (Z.of_nat n) u h = Ok (tt, h')
        ∧ h' !! u = Some (Nat.iter n (Num.swept F) a)
        ∧ length h' = (length h + n)%nat.
Proof.
  intros Hupd Hu. unfold Num.time_loop, range.
  replace (Z.of_nat n - 0) with (Z.of_nat n) by lia.
  induction n as [|n (h1 & E1 & Hu1 & Hl1)].
  - exists h. repeat split; [done|lia].
  - rewrite seqZ_S, num_for_app. erewrite num_bind_ok by done. simpl.
    rewrite <-(num_length_iter_swept F n a).
    erewrite num_bind_ok by (by eapply num_sweep_ok). eexists; split; [done|].
    pose proof (lookup_lt_Some _ _ _ Hu1). split.
    + apply list_lookup_insert_eq. rewrite length_app. lia.
    + rewrite length_insert, length_app. simpl. lia.
Qed.

Lemma num_ones_ok (n : nat) h :
  Num.ones (Z.of_nat n) h = Ok (length h, h ++ [replicate n (Num.of_int 1)]).
Proof. unfold Num.ones. rewrite decide_False by lia. by rewrite Nat2Z.id. Qed.

Lemma num_loop_ok F update (n : nat) h u a :
  Num.update_spec F update → h !! u = Some a →
  ∃ h', (Num.ones (Z.of_nat (length a));;
         Num.time_loop update (Z.of_nat (length a)) (Z.of_nat n) u) h
        = Ok (tt, h')
        ∧ h' !! u = Some (Nat.iter n (Num.swept F) a)
        ∧ length h' = (length h + 1 + n)%nat.
Proof.
  intros Hupd Hu. erewrite num_bind_ok by apply num_ones_ok.
  destruct (num_time_loop_ok F update n
              (h ++ [replicate (length a) (Num.of_int 1)]) u a)
    as (h' & E & Hu' & Hl); [done|by apply lookup_app_l_Some|].
  exists h'. repeat split; [done..|]. rewrite Hl, length_app. simpl. lia.
Qed.

Lemma num_stepper_ok F update (n : nat) field :
  Num.update_spec F update →
  Num.run (u ← Num.alloc field;
           (Num.ones (Z.of_nat (length field));;
            Num.time_loop update (Z.of_nat (length field)) (Z.of_nat n) u);;
           Num.deref u)
  = Ok (Nat.iter n (Num.swept F) field)
  ∧ Num.heap_size_after
      (u ← Num.alloc field;
       (Num.ones (Z.of_nat (length field));;
        Num.time_loop update (Z.of_nat (length field)) (Z.of_nat n) u);;
       Num.deref u)
    = Some (2 + n)%nat.
Proof.
  intros Hupd. unfold Num.run, Num.heap_size_after.
  erewrite num_bind_ok by reflexivity.
  destruct (num_loop_ok F update n ([] ++ [field]) 0%nat field Hupd eq_refl)
    as (h' & E & Hu & Hl).
  erewrite num_bind_ok by exact E.
  simpl. rewrite (num_deref_ok _ _ _ Hu). split; [done|]. by rewrite Hl.
Qed.

(** Both steppers iterate the sweep of the cell. *)
Lemma num_advance_linear_ok c dt dx (n : nat) field :
  Num.is_zero dx = false →
  Num.advance_linear c dt dx (Z.of_nat n) field
  = Ok (Num.advance_code (Num.speed_const c) dt dx n field)
  ∧ Num.heap_size_after (Num.linear_stepper c dt dx (Z.of_nat n) field)
    = Some (2 + n)%nat.
Proof. intros Hdx. apply num_stepper_ok. by apply num_linear_update_spec. Qed.

Lemma num_advance_nonlinear_ok dt dx (n : nat) field :
  (∀ x, Num.np_quot x dx = Ok (Num.quot x dx)) →
  Num.advance_nonlinear dt dx (Z.of_nat n) field
  = Ok (Num.advance_code Num.speed_local dt dx n field)
  ∧ Num.heap_size_after (Num.nonlinear_stepper dt dx (Z.of_nat n) field)
    = Some (2 + n)%nat.
Proof. intros Hdx. apply num_stepper_ok. by apply num_nonlinear_update_spec. Qed.

Lemma num_length_advance_code speed dt dx n field :
  length (Num.advance_code speed dt dx n field) = length field.
Proof. apply num_length_iter_swept. Qed.

(** ** One sweep, index by index *)

Lemma num_length_sweep_code speed dt dx s :
  length (Num.sweep_code speed dt dx s) = length s.
Proof. apply num_length_swept. Qed.

Lemma num_sweep_code_lookup_0 speed dt dx s :
  Num.sweep_code speed dt dx s !! 0%nat = s !! 0%nat.
Proof.
  unfold Num.sweep_code, Num.swept. rewrite num_lookup_written.
  by destruct (s !! 0%nat).
Qed.

Lemma num_sweep_code_lookup speed dt dx s (i : nat) x xl :
  s !! S i = Some x → s !! i = Some xl →
  Num.sweep_code speed dt dx s !! S i
  = Some (Num.stencil_value speed dt dx x xl).
Proof.
  intros Hx Hxl. unfold Num.sweep_code, Num.swept.
  rewrite num_lookup_written, Hx. simpl.
  pose proof (lookup_lt_Some _ _ _ Hx).
  rewrite decide_True by lia. unfold Num.stencil.
  rewrite (list_lookup_total_correct _ _ _ Hx).
  replace (S i - 1)%nat with i by lia.
  by rewrite (list_lookup_total_correct _ _ _ Hxl).
Qed.

(** A sweep that writes back what it reads leaves the field as it is. *)
Lemma num_sweep_code_fixed speed dt dx s :
  (∀ (i : nat) x xl, s !! S i = Some x → s !! i = Some xl →
     Num.stencil_value speed dt dx x xl = x) →
  Num.sweep_code speed dt dx s = s.
Proof.
  intros Hfix. apply list_eq. intros [|i].
  - apply num_sweep_code_lookup_0.
  - destruct (s !! S i) as [x|] eqn:Hx.
    + destruct (lookup_lt_is_Some_2 s i) as [xl Hxl].
      { apply lookup_lt_Some in Hx. lia. }
      rewrite (num_sweep_code_lookup _ _ _ _ _ _ _ Hx Hxl), <-Hx.
      rewrite Hx. f_equal. by eapply Hfix.
    + apply lookup_ge_None. rewrite num_length_sweep_code. by apply lookup_ge_None.
Qed.

Lemma num_advance_code_fixed speed dt dx n s :
  Num.sweep_code speed dt dx s = s → Num.advance_code speed dt dx n s = s.
Proof.
  intros Hs. unfold Num.advance_code.
  induction n as [|n IH]; simpl; [done|]. by rewrite IH.
Qed.

(** The first [m + 1] entries after a sweep depend on the first [m + 1]
    entries before it. *)
Lemma num_sweep_code_local speed dt dx (m : nat) a b :
  take (S m) a = take (S m) b →
  take (S m) (Num.sweep_code speed dt dx a)
  = take (S m) (Num.sweep_code speed dt dx b).
Proof.
  intros Hab. apply list_eq. intros i.
  destruct (decide (i < S m)%nat) as [Hi|Hi];
    [|by rewrite !lookup_take_ge by lia].
  rewrite !lookup_take_lt by lia.
  assert (Hl : ∀ j, (j < S m)%nat → a !! j = b !! j).
  { intros j Hj. by rewrite <-(lookup_take_lt a (S m) j),
                            <-(lookup_take_lt b (S m) j), Hab by lia. }
  destruct i as [|i].
  - rewrite !num_sweep_code_lookup_0. apply Hl. lia.
  - pose proof (Hl (S i) Hi) as H1. pose proof (Hl i ltac:(lia)) as H2.
    destruct (a !! S i) as [x|] eqn:Hx.
    + destruct (lookup_lt_is_Some_2 a i) as [xl Hxl].
      { apply lookup_lt_Some in Hx. lia. }
      rewrite (num_sweep_code_lookup _ _ _ a _ _ _ Hx Hxl).
      symmetry. apply num_sweep_code_lookup; congruence.
    + transitivity (@None T).
      * apply lookup_ge_None. rewrite num_length_sweep_code. by apply lookup_ge_None.
      * symmetry. apply lookup_ge_None. rewrite num_length_sweep_code.
        apply lookup_ge_None. congruence.
Qed.

Lemma num_advance_code_local speed dt dx (m n : nat) a b :
  take (S m) a = take (S m) b →
  take (S m) (Num.advance_code speed dt dx n a)
  = take (S m) (Num.advance_code speed dt dx n b).
Proof.
  intros Hab. unfold Num.advance_code.
  induction n as [|n IH]; simpl; [done|]. by apply num_sweep_code_local.
Qed.

(** ** The notebooks as the stepper on the constructed field *)

Lemma num_range_0_to_nat nt : range 0 nt = range 0 (Z.of_nat (Z.to_nat nt)).
Proof. unfold range, seqZ. by rewrite !Z.sub_0_r, Nat2Z.id. Qed.

Lemma num_lift_inv {A} (r : result A) h x h' :
  Num.lift r h = Ok (x, h') → r = Ok x ∧ h' = h.
Proof. unfold Num.lift. destruct r; [|done]. by intros [= -> ->]. Qed.

Lemma num_pydiv_inv x dx h q h' :
  Num.pydiv x dx h = Ok (q, h') → Num.is_zero dx = false ∧ h' = h.
Proof.
  unfold Num.pydiv. destruct (Num.is_zero dx); [done|]. by intros [= _ ->].
Qed.

(** A construction that succeeds leaves a field of [nx] points, and its
    spacing has passed the test of Python's division. *)
Lemma num_initial_condition_inv nx dx h u h' :
  Num.initial_condition nx dx h = Ok (u, h') →
  Num.is_zero dx = false
  ∧ ∃ a, h' !! u = Some a ∧ Z.of_nat (length a) = nx.
Proof.
  unfold Num.initial_condition. intros E.
  apply num_bind_inv in E as (u0 & h1 & E1 & E).
  apply num_bind_inv in E as (lo & h2 & E2 & E).
  apply num_bind_inv in E as (start & h3 & E3 & E).
  apply num_bind_inv in E as (hi & h4 & E4 & E).
  apply num_bind_inv in E as (stop & h5 & E5 & E).
  apply num_bind_inv in E as ([] & h6 & E6 & E).
  injection E as -> ->.
  apply num_pydiv_inv in E2 as [Hdx ->].
  apply num_lift_inv in E3 as [_ ->].
  apply num_pydiv_inv in E4 as [_ ->].
  apply num_lift_inv in E5 as [_ ->].
  split; [done|].
  unfold Num.ones in E1. destruct (decide (nx < 0)) as [|Hnx]; [done|].
  injection E1 as <- <-.
  unfold Num.setslice in E6.
  erewrite num_bind_ok in E6
    by (apply num_deref_ok, (list_lookup_middle h [] _ (length h)); done).
  injection E6 as <-.
  eexists. split.
  - apply list_lookup_insert_eq. rewrite length_app. simpl. lia.
  - assert (Hlen : ∀ (l : list Z) (a : list T) x,
              length (foldr (λ j acc, <[Z.to_nat j:=x]> acc) a l) = length a).
    { intros l a x. induction l as [|j l IH]; simpl; [done|].
      by rewrite length_insert. }
    rewrite Hlen, length_replicate. lia.
Qed.

Lemma num_construct_inv nx dx (u0 : list T) :
  Num.construct nx = Ok (dx, u0) →
  Num.is_zero dx = false ∧ Z.of_nat (length u0) = nx
  ∧ ∃ h1 h2 u, Num.grid_spacing nx [] = Ok (dx, h1)
               ∧ Num.initial_condition nx dx h1 = Ok (u, h2)
               ∧ h2 !! u = Some u0.
Proof.
  unfold Num.construct, Num.run. intros Hc.
  match type of Hc with
  | match ?m with _ => _ end = _ =>
      destruct m as [[[d a] hf]|] eqn:E; [|done]
  end.
  injection Hc as -> ->.
  apply num_bind_inv in E as (d & h1 & E1 & E).
  apply num_bind_inv in E as (u & h2 & E2 & E).
  apply num_bind_inv in E as (a & h3 & E3 & E).
  injection E as -> -> ->.
  unfold Num.deref in E3. destruct (h2 !! u) as [a'|] eqn:Hu; [|done].
  injection E3 as -> ->.
  destruct (num_initial_condition_inv _ _ _ _ _ E2) as (Hdx & a' & Ha' & Hlen).
  rewrite Hu in Ha'. injection Ha' as <-.
  split; [done|]. split; [done|]. eauto 10.
Qed.

Lemma num_lesson_stepper F (update : T → nat → nat → Z → Num.M unit) nx nt
    dx (u0 : list T) :
  Num.update_spec F (update dx) →
  Num.construct nx = Ok (dx, u0) →
  Num.run (d ← Num.grid_spacing nx;
           u ← Num.initial_condition nx d;
           (Num.ones nx;; Num.time_loop (update d) nx nt u);;
           Num.deref u)
  = Ok (Nat.iter (Z.to_nat nt) (Num.swept F) u0).
Proof.
  intros Hupd Hc.
  apply num_construct_inv in Hc as (_ & Hnx & h1 & h2 & u & E1 & E2 & Hu).
  unfold Num.run. erewrite num_bind_ok by exact E1.
  erewrite num_bind_ok by exact E2. subst nx.
  unfold Num.time_loop. rewrite num_range_0_to_nat.
  destruct (num_loop_ok F (update dx) (Z.to_nat nt) h2 u u0 Hupd Hu)
    as (h' & E & Hu' & _).
  unfold Num.time_loop in E.
  erewrite num_bind_ok by exact E. by rewrite (num_deref_ok _ _ _ Hu').
Qed.

End num_loops.

(** * Binary64: the operations on zeros and on finite floats

    The facts below are read off the specification of the primitive
    operations ([FloatAxioms]): a product with a zero factor and a finite
    one is a zero; subtracting a zero changes at most the sign of a zero;
    a difference of two finite floats of which one is a zero is finite. *)

Section f64_facts.

Implicit Types x y z k d xl yl dt dx v : F64.float.

Lemma f64_of_int_0 : F64.of_int 0 = PrimFloat.zero.
Proof. vm_compute. reflexivity. Qed.

Lemma f64_is_zero_iff x :
  F64.is_zero x = true ↔ ∃ s, FloatOps.Prim2SF x = SpecFloat.S754_zero s.
Proof.
  unfold F64.is_zero. rewrite FloatAxioms.eqb_spec.
  change (FloatOps.Prim2SF PrimFloat.zero) with (SpecFloat.S754_zero false).
  destruct (FloatOps.Prim2SF x) as [s|s| |s m e]; simpl.
  - split; eauto.
  - split; [by destruct s|]. by intros [? ?].
  - split; [done|]. by intros [? ?].
  - split; [by destruct s|]. by intros [? ?].
Qed.

Lemma f64_is_zero_false x :
  F64.is_zero x = false ↔ ∀ s, FloatOps.Prim2SF x ≠ SpecFloat.S754_zero s.
Proof.
  split.
  - intros H s E.
    assert (F64.is_zero x = true) by (apply f64_is_zero_iff; eauto).
    congruence.
  - intros H. destruct (F64.is_zero x) eqn:E; [|done].
    apply f64_is_zero_iff in E as [s E]. by destruct (H s).
Qed.

Lemma f64_zero_finite x : F64.is_zero x = true → F64.finite x = true.
Proof. intros [s E]%f64_is_zero_iff. unfold F64.finite. by rewrite E. Qed.

(** [0 < x]: [x] is a positive finite float, or [+inf]. *)
Lemma f64_positive x :
  PrimFloat.ltb PrimFloat.zero x = true →
  FloatOps.Prim2SF x = SpecFloat.S754_infinity false
  ∨ ∃ m e, FloatOps.Prim2SF x = SpecFloat.S754_finite false m e.
Proof.
  rewrite FloatAxioms.ltb_spec.
  change (FloatOps.Prim2SF PrimFloat.zero) with (SpecFloat.S754_zero false).
  destruct (FloatOps.Prim2SF x) as [s|s| |s m e]; simpl; try done.
  - destruct s; [done|]. by left.
  - destruct s; [done|]. right. eauto.
Qed.

Lemma f64_positive_not_zero x :
  PrimFloat.ltb PrimFloat.zero x = true → F64.is_zero x = false.
Proof.
  intros [E|(m & e & E)]%f64_positive; apply f64_is_zero_false; intros s;
    by rewrite E.
Qed.

Lemma f64_mul_zero_l k d :
  F64.is_zero k = true → F64.finite d = true →
  F64.is_zero (PrimFloat.mul k d) = true.
Proof.
  intros [s Hk]%f64_is_zero_iff Hd. apply f64_is_zero_iff.
  rewrite FloatAxioms.mul_spec, Hk. unfold F64.finite in Hd.
  destruct (FloatOps.Prim2SF d) as [s'|s'| |s' m e]; try done; simpl; eauto.
Qed.

Lemma f64_mul_zero_r k d :
  F64.finite k = true → F64.is_zero d = true →
  F64.is_zero (PrimFloat.mul k d) = true.
Proof.
  intros Hk [s Hd]%f64_is_zero_iff. apply f64_is_zero_iff.
  rewrite FloatAxioms.mul_spec, Hd. unfold F64.finite in Hk.
  destruct (FloatOps.Prim2SF k) as [s'|s'| |s' m e]; try done; simpl; eauto.
Qed.

(** With [c = 0] the factor [c * dt / dx] of the cell is a zero. *)
Lemma f64_zero_courant dt dx :
  PrimFloat.ltb PrimFloat.zero dx = true →
  PrimFloat.ltb PrimFloat.zero dt = true → F64.finite dt = true →
  F64.is_zero (PrimFloat.div (PrimFloat.mul (F64.of_int 0) dt) dx) = true.
Proof.
  intros Hdx Hdt Hfin. apply f64_is_zero_iff.
  rewrite FloatAxioms.div_spec, FloatAxioms.mul_spec, f64_of_int_0.
  change (FloatOps.Prim2SF PrimFloat.zero) with (SpecFloat.S754_zero false).
  unfold F64.finite in Hfin.
  apply f64_positive in Hdt as [E|(m & e & E)]; rewrite E in Hfin |- *;
    [done|].
  apply f64_positive in Hdx as [E'|(m' & e' & E')]; rewrite E'; simpl; eauto.
Qed.

(** [x - 0.0] is [x], except that [-0.0 - -0.0] is [0.0]. *)
Lemma f64_sub_zero x z :
  F64.is_zero z = true → F64.same (PrimFloat.sub x z) x.
Proof.
  intros [s Hz]%f64_is_zero_iff.
  pose proof (FloatAxioms.sub_spec x z) as E. rewrite Hz in E.
  destruct (FloatOps.Prim2SF x) as [sx|sx| |sx m e] eqn:Hx.
  - right. split; apply f64_is_zero_iff; [|by eauto].
    rewrite E. destruct sx, s; simpl; eauto.
  - left. apply FloatAxioms.Prim2SF_inj. by rewrite E, Hx.
  - left. apply FloatAxioms.Prim2SF_inj. by rewrite E, Hx.
  - left. apply FloatAxioms.Prim2SF_inj. by rewrite E, Hx.
Qed.

Lemma f64_sub_zero_eq x z :
  F64.is_zero z = true → F64.is_neg_zero x = false → PrimFloat.sub x z = x.
Proof.
  intros [s Hz]%f64_is_zero_iff Hx. apply FloatAxioms.Prim2SF_inj.
  rewrite FloatAxioms.sub_spec, Hz. unfold F64.is_neg_zero in Hx.
  destruct (FloatOps.Prim2SF x) as [sx|sx| |sx m e]; try done.
  destruct sx; [done|]. by destruct s.
Qed.

(** [x - x] is [0.0] for a finite [x]. *)
Lemma f64_sub_diag x :
  F64.finite x = true → F64.is_zero (PrimFloat.sub x x) = true.
Proof.
  intros Hx. apply f64_is_zero_iff. rewrite FloatAxioms.sub_spec.
  unfold F64.finite in Hx.
  destruct (FloatOps.Prim2SF x) as [sx|sx| |sx m e]; try done.
  - destruct sx; simpl; eauto.
  - unfold FloatAxioms.SF64sub, SpecFloat.SFsub. rewrite Z.sub_diag.
    simpl. eauto.
Qed.

Lemma f64_same_trans x y z : F64.same x y → F64.same y z → F64.same x z.
Proof.
  intros [->|[Hx Hy]] [->|[Hy' Hz]]; try (by left); try (by right).
Qed.

Lemma f64_same_finite x y :
  F64.same x y → F64.finite y = true → F64.finite x = true.
Proof. intros [->|[Hx _]] Hy; [done|]. by apply f64_zero_finite. Qed.

(** Two floats that are the same up to the sign of a zero are [==]. *)
Lemma f64_same_eq x y : F64.same x y → F64.finite y = true → F64.eq x y.
Proof.
  unfold F64.eq. rewrite FloatAxioms.eqb_spec.
  intros [->|[[s Hx]%f64_is_zero_iff [s' Hy]%f64_is_zero_iff]] Hfin.
  - unfold F64.finite in Hfin.
    destruct (FloatOps.Prim2SF y) as [sy|sy| |sy m e]; try done.
    unfold SpecFloat.SFeqb, SpecFloat.SFcompare.
    destruct sy; rewrite Z.compare_refl, Pos.compare_cont_refl; done.
  - by rewrite Hx, Hy.
Qed.

(** A difference with a zero on one side does not overflow. *)
Lemma f64_sub_finite_l x xl :
  F64.is_zero x = true → F64.finite xl = true →
  F64.finite (PrimFloat.sub x xl) = true.
Proof.
  intros [s Hx]%f64_is_zero_iff Hxl. unfold F64.finite in *.
  rewrite FloatAxioms.sub_spec, Hx.
  destruct (FloatOps.Prim2SF xl) as [sy|sy| |sy m e]; try done.
  by destruct s, sy.
Qed.

Lemma f64_sub_finite_r x xl :
  F64.finite x = true → F64.is_zero xl = true →
  F64.finite (PrimFloat.sub x xl) = true.
Proof.
  intros Hx Hxl. apply (f64_same_finite _ x); [|done]. by apply f64_sub_zero.
Qed.

Lemma f64_sub_finite_same x y xl yl :
  F64.same x y → F64.same xl yl →
  F64.finite y = true → F64.finite yl = true →
  F64.finite (PrimFloat.sub y yl) = true →
  F64.finite (PrimFloat.sub x xl) = true.
Proof.
  intros [->|[Hx _]] [->|[Hxl _]] Hy Hyl Hd.
  - done.
  - by apply f64_sub_finite_r.
  - by apply f64_sub_finite_l.
  - by apply f64_sub_finite_l, f64_zero_finite.
Qed.

Lemma f64_smooth_lookup (field : list F64.float) (i : nat) x xl :
  F64.smooth field = true →
  field !! S i = Some x → field !! i = Some xl →
  F64.finite (PrimFloat.sub x xl) = true.
Proof.
  revert i. induction field as [|a [|b field] IH]; intros i Hs Hx Hxl;
    [done..|].
  cbn [F64.smooth] in Hs. apply andb_prop in Hs as [Hab Hs].
  destruct i as [|i].
  - simpl in Hx, Hxl. by injection Hx as <-; injection Hxl as <-.
  - by apply (IH i).
Qed.

(** ** A sweep with speed 0 *)

(** The value stored by the assignment of lesson 1 with [c = 0], when the
    difference of the two values read does not overflow. *)
Lemma f64_zero_speed_stencil dt dx x xl :
  PrimFloat.ltb PrimFloat.zero dx = true →
  PrimFloat.ltb PrimFloat.zero dt = true → F64.finite dt = true →
  F64.finite (PrimFloat.sub x xl) = true →
  F64.same (Num.stencil_value (Num.speed_const (F64.of_int 0)) dt dx x xl) x.
Proof.
  intros Hdx Hdt Hfin Hd. unfold Num.stencil_value, Num.speed_const.
  apply f64_sub_zero, f64_mul_zero_l; [|done].
  by apply f64_zero_courant.
Qed.

Lemma f64_zero_speed_sweep dt dx (field g : list F64.float) :
  PrimFloat.ltb PrimFloat.zero dx = true →
  PrimFloat.ltb PrimFloat.zero dt = true → F64.finite dt = true →
  forallb F64.finite field = true → F64.smooth field = true →
  Forall2 F64.same g field →
  Forall2 F64.same
    (Num.sweep_code (Num.speed_const (F64.of_int 0)) dt dx g) field.
Proof.
  intros Hdx Hdt Hfin Hall Hs Hg.
  assert (Hf : ∀ i y, field !! i = Some y → F64.finite y = true).
  { intros i y Hy. apply list_elem_of_lookup_2 in Hy.
    rewrite forallb_forall in Hall. apply Hall. by apply list_elem_of_In. }
  apply Forall2_same_length_lookup in Hg as [Hlen Hg].
  apply Forall2_same_length_lookup. split.
  { by rewrite num_length_sweep_code. }
  intros [|i] r y Hr Hy.
  - rewrite num_sweep_code_lookup_0 in Hr. by eapply Hg.
  - pose proof (lookup_lt_Some _ _ _ Hy) as Hi.
    destruct (lookup_lt_is_Some_2 g (S i)) as [x Hx]; [lia|].
    destruct (lookup_lt_is_Some_2 g i) as [xl Hxl]; [lia|].
    destruct (lookup_lt_is_Some_2 field i) as [yl Hyl]; [lia|].
    rewrite (num_sweep_code_lookup _ _ _ _ _ _ _ Hx Hxl) in Hr.
    injection Hr as <-.
    apply (f64_same_trans _ x); [|by eapply Hg].
    apply f64_zero_speed_stencil; [done..|].
    apply (f64_sub_finite_same x y xl yl); eauto.
    by eapply f64_smooth_lookup.
Qed.

Lemma f64_zero_speed_advance dt dx (field : list F64.float) (n : nat) :
  PrimFloat.ltb PrimFloat.zero dx = true →
  PrimFloat.ltb PrimFloat.zero dt = true → F64.finite dt = true →
  forallb F64.finite field = true → F64.smooth field = true →
  Forall2 F64.eq
    (Num.advance_code (Num.speed_const (F64.of_int 0)) dt dx n field) field.
Proof.
  intros Hdx Hdt Hfin Hall Hs.
  assert (Hn : Forall2 F64.same
    (Num.advance_code (Num.speed_const (F64.of_int 0)) dt dx n field) field).
  { unfold Num.advance_code. induction n as [|n IH]; simpl.
    - apply Forall2_same_length_lookup. split; [done|].
      intros i x y Hx Hy. rewrite Hx in Hy. injection Hy as <-. by left.
    - by apply f64_zero_speed_sweep. }
  apply Forall2_same_length_lookup in Hn as [Hlen Hn].
  apply Forall2_same_length_lookup. split; [done|].
  intros i x y Hx Hy. apply f64_same_eq; [by eapply Hn|].
  rewrite forallb_forall in Hall. apply Hall.
  by apply list_elem_of_In, list_elem_of_lookup_2 with i.
Qed.

(** ** A uniform field *)

(** On two equal neighbours [v] the assignment stores [v], when the
    factor [speed * dt / dx] is finite. *)
Lemma f64_stencil_uniform (speed : F64.float → F64.float) dt dx v :
  F64.finite v = true → F64.is_neg_zero v = false →
  F64.finite (PrimFloat.div (PrimFloat.mul (speed v) dt) dx) = true →
  Num.stencil_value speed dt dx v v = v.
Proof.
  intros Hv Hnz Hk. unfold Num.stencil_value.
  apply f64_sub_zero_eq; [|done].
  apply f64_mul_zero_r; [done|]. by apply f64_sub_diag.
Qed.

Lemma f64_uniform_fixed (speed : F64.float → F64.float) dt dx v (N n : nat) :
  F64.finite v = true → F64.is_neg_zero v = false →
  F64.finite (PrimFloat.div (PrimFloat.mul (speed v) dt) dx) = true →
  Num.advance_code speed dt dx n (replicate N v) = replicate N v.
Proof.
  intros Hv Hnz Hk. apply num_advance_code_fixed, num_sweep_code_fixed.
  intros i x xl [-> _]%lookup_replicate [-> _]%lookup_replicate.
  by apply f64_stencil_uniform.
Qed.

Lemma f64_list_eqb_eq (l k : list F64.float) : F64.list_eqb l k = true → l = k.
Proof.
  revert k. induction l as [|x l IH]; intros [|y k]; simpl; try done.
  intros [Hxy Hlk]%andb_prop.
  apply FloatAxioms.Leibniz.eqb_spec in Hxy as ->. by rewrite (IH k).
Qed.

End f64_facts.

(** * Exact arithmetic as an instance *)

Lemma exact_is_zero (dx : Qc) : dx ≠ 0%Qc → Num.is_zero dx = false.
Proof. intros Hdx. by apply bool_decide_eq_false. Qed.

Lemma exact_np_quot (dx : Qc) :
  dx ≠ 0%Qc → ∀ x : Qc, Num.np_quot x dx = Ok (Num.quot x dx).
Proof.
  intros Hdx x. unfold Num.np_quot, exact_arith. by rewrite decide_False.
Qed.

(** In exact arithmetic the sweep of the cell, [(speed * dt) / dx], is the
    sweep of the specification, [speed * (dt / dx)]. *)
Lemma exact_sweep_code speed dt dx (s : list Qc) :
  Num.sweep_code speed dt dx s = sweep_ref speed dt dx s.
Proof.
  unfold Num.sweep_code, Num.swept, Num.written, sweep_ref.
  apply list_eq; intros i. rewrite !list_lookup_imap.
  destruct (s !! i) as [x|] eqn:E; [simpl|done].
  pose proof (lookup_lt_Some _ _ _ E) as Hi.
  destruct (decide (i = 0%nat)) as [->|Hi0].
  - by rewrite decide_False by lia.
  - rewrite decide_True by lia. unfold Num.stencil, Num.stencil_value. f_equal.
    destruct (lookup_lt_is_Some_2 s i Hi) as [y Hy].
    destruct (lookup_lt_is_Some_2 s (i - 1)%nat) as [yl Hyl]; [lia|].
    rewrite !(list_lookup_total_correct s i y) by done.
    rewrite !(list_lookup_total_correct s (i - 1)%nat yl) by done.
    cbn [Num.sub Num.mul Num.quot exact_arith]. unfold Qcdiv. ring.
Qed.

Lemma exact_advance_code speed dt dx n (a : list Qc) :
  Num.advance_code speed dt dx n a = advance_ref speed dt dx n a.
Proof.
  unfold Num.advance_code, advance_ref. induction n as [|n IH]; simpl; [done|].
  by rewrite IH, exact_sweep_code.
Qed.

Lemma exact_advance_linear c dt dx (n : nat) (field : list Qc) :
  dx ≠ 0%Qc →
  Num.advance_linear c dt dx (Z.of_nat n) field
  = Ok (advance_ref (speed_const c) dt dx n field)
  ∧ Num.heap_size_after (Num.linear_stepper c dt dx (Z.of_nat n) field)
    = Some (2 + n)%nat.
Proof.
  intros Hdx. rewrite <-exact_advance_code.
  by apply num_advance_linear_ok, exact_is_zero.
Qed.

Lemma exact_advance_nonlinear dt dx (n : nat) (field : list Qc) :
  dx ≠ 0%Qc →
  Num.advance_nonlinear dt dx (Z.of_nat n) field
  = Ok (advance_ref speed_local dt dx n field)
  ∧ Num.heap_size_after (Num.nonlinear_stepper dt dx (Z.of_nat n) field)
    = Some (2 + n)%nat.
Proof.
  intros Hdx. rewrite <-exact_advance_code.
  by apply num_advance_nonlinear_ok, exact_np_quot.
Qed.

(** Over the rationals the two embeddings of the steppers agree. *)
Remark exact_embeddings_agree c dt dx (n : nat) (field : list Qc) :
  dx ≠ 0%Qc →
  Num.advance_linear c dt dx (Z.of_nat n) field
  = advance_linear c dt dx (Z.of_nat n) field
  ∧ Num.advance_nonlinear dt dx (Z.of_nat n) field
    = advance_nonlinear dt dx (Z.of_nat n) field.
Proof.
  intros Hdx. split.
  - rewrite advance_linear_ok by done. by apply exact_advance_linear.
  - rewrite advance_nonlinear_ok by done. by apply exact_advance_nonlinear.
Qed.

(** * The steppers in binary64 *)

Lemma f64_advance_linear c dt dx (n : nat) (field : list F64.float) :
  F64.is_zero dx = false →
  Num.advance_linear c dt dx (Z.of_nat n) field
  = Ok (Num.advance_code (Num.speed_const c) dt dx n field).
Proof. intros Hdx. by apply num_advance_linear_ok. Qed.

Lemma f64_advance_nonlinear dt dx (n : nat) (field : list F64.float) :
  Num.advance_nonlinear dt dx (Z.of_nat n) field
  = Ok (Num.advance_code Num.speed_local dt dx n field).
Proof. by apply num_advance_nonlinear_ok. Qed.

(** ** The stepper against its specification *)

(** The claim C1 fails as stated, for the arithmetic of the notebooks: on
    the field [[0, 1]] with [c = 3], [dt = .1], [dx = .3] one step of the
    linear stepper stores [-2^-52] at index 1, where the formula of the
    specification, [snapshot[i] - speed * (dt/dx) * (snapshot[i] -
    snapshot[i-1])], evaluates to 0: [3 * .1 / .3] is [(3 * .1) / .3], one
    unit in the last place above 1, and [3 * (.1 / .3)] is 1. *)
Lemma reference_differs_in_binary64 :
  let field := [F64.of_int 0; F64.of_int 1] in
  let c := F64.of_int 3 in
  let dt := F64.dec 1 10 in
  let dx := F64.dec 3 10 in
  (2 ≤ length field)%nat ∧ F64.pos dx ∧ F64.pos dt
  ∧ ∃ r, Num.advance_linear (arith:=F64.binary64) c dt dx 1 field = Ok r
         ∧ r ≠ Num.advance_ref (Num.speed_const c) dt dx 1 field
         ∧ F64.value <$> r = [Some 0%Q; Some (-1 # 2 ^ 52)%Q]
         ∧ F64.value <$> Num.advance_ref (Num.speed_const c) dt dx 1 field
           = [Some 0%Q; Some 0%Q].
Proof.
  intros field c dt dx.
  split; [simpl; lia|]. split; [vm_compute; reflexivity|].
  split; [vm_compute; reflexivity|].
  eexists. split; [vm_compute; reflexivity|]. split; [|split].
  - intros E. apply (f_equal (fmap F64.value)) in E. vm_compute in E.
    discriminate E.
  - vm_compute. reflexivity.
  - vm_compute. reflexivity.
Qed.

(** C1, amended. For a field of at least two binary64 values, any number
    [steps] of steps and positive [dx] and [dt], the linear stepper
    (constant speed [c]) and the nonlinear stepper (speed the local
    previous-step value) return the field after [steps] sweeps, each of
    which sets [field[i]] for [i = 1 .. N-1] to the expression of the cell,
    [snapshot[i] - ((speed * dt) / dx) * (snapshot[i] - snapshot[i-1])],
    evaluated in binary64 with this association; each stepper takes
    exactly [steps] snapshots.  Carried out in exact arithmetic, the same
    loops return the field that the specification's [advance] defines,
    with [speed * (dt/dx)]. *)
Theorem steppers_iterate_the_cell :
  (∀ (field : list F64.float) (steps : nat) (c dt dx : F64.float),
     (2 ≤ length field)%nat → F64.pos dx → F64.pos dt →
     Num.advance_linear (arith:=F64.binary64) c dt dx (Z.of_nat steps) field
     = Ok (Num.advance_code (Num.speed_const c) dt dx steps field)
     ∧ Num.advance_nonlinear (arith:=F64.binary64) dt dx (Z.of_nat steps) field
       = Ok (Num.advance_code Num.speed_local dt dx steps field)
     ∧ Num.heap_size_after
         (Num.linear_stepper (arith:=F64.binary64) c dt dx (Z.of_nat steps) field)
       = Some (2 + steps)%nat
     ∧ Num.heap_size_after
         (Num.nonlinear_stepper (arith:=F64.binary64) dt dx (Z.of_nat steps) field)
       = Some (2 + steps)%nat)
  ∧ (∀ (field : list Qc) (steps : nat) (c dt dx : Qc),
       (2 ≤ length field)%nat → (0 < dx)%Qc → (0 < dt)%Qc →
       Num.advance_linear (arith:=exact_arith) c dt dx (Z.of_nat steps) field
       = Ok (advance_ref (speed_const c) dt dx steps field)
       ∧ Num.advance_nonlinear (arith:=exact_arith) dt dx (Z.of_nat steps) field
         = Ok (advance_ref speed_local dt dx steps field)).
Proof.
  split.
  - intros field steps c dt dx _ Hdx%f64_positive_not_zero _.
    destruct (num_advance_linear_ok (arith:=F64.binary64) c dt dx steps field
                Hdx) as [A1 A2].
    destruct (num_advance_nonlinear_ok (arith:=F64.binary64) dt dx steps field
                (λ _, eq_refl)) as [B1 B2].
    exact (conj A1 (conj B1 (conj A2 B2))).
  - intros field steps c dt dx _ Hdx%Qclt_not_eq_0 _. split.
    + by apply exact_advance_linear.
    + by apply exact_advance_nonlinear.
Qed.

Lemma steppers_iterate_the_cell_witness :
  let field := [F64.of_int 0; F64.of_int 1] in
  let c := F64.of_int 3 in
  let dt := F64.dec 1 10 in
  let dx := F64.dec 3 10 in
  let exact_field := [qc 1 1; qc 2 1; qc 1 1] in
  ((2 ≤ length field)%nat ∧ F64.pos dx ∧ F64.pos dt
   ∧ Num.advance_linear (arith:=F64.binary64) c dt dx (Z.of_nat 1) field
     = Ok (Num.advance_code (Num.speed_const c) dt dx 1 field)
   ∧ Num.advance_nonlinear (arith:=F64.binary64) dt dx (Z.of_nat 1) field
     = Ok (Num.advance_code Num.speed_local dt dx 1 field)
   ∧ Num.heap_size_after
       (Num.linear_stepper (arith:=F64.binary64) c dt dx (Z.of_nat 1) field)
     = Some 3%nat
   ∧ Num.heap_size_after
       (Num.nonlinear_stepper (arith:=F64.binary64) dt dx (Z.of_nat 1) field)
     = Some 3%nat)
  ∧ ((2 ≤ length exact_field)%nat ∧ (0 < qc 1 20)%Qc ∧ (0 < qc 1 40)%Qc
     ∧ Num.advance_linear (arith:=exact_arith) (qc 1 1) (qc 1 40) (qc 1 20)
         (Z.of_nat 2) exact_field
       = Ok (advance_ref (speed_const (qc 1 1)) (qc 1 40) (qc 1 20) 2 exact_field)
     ∧ Num.advance_nonlinear (arith:=exact_arith) (qc 1 40) (qc 1 20)
         (Z.of_nat 2) exact_field
       = Ok (advance_ref speed_local (qc 1 40) (qc 1 20) 2 exact_field)).
Proof.
  intros field c dt dx exact_field.
  assert (H1 : (2 ≤ length field)%nat) by (simpl; lia).
  assert (H2 : F64.pos dx) by (vm_compute; reflexivity).
  assert (H2' : F64.pos dt) by (vm_compute; reflexivity).
  assert (H3 : (2 ≤ length exact_field)%nat) by (simpl; lia).
  assert (H4 : (0 < qc 1 20)%Qc) by reflexivity.
  assert (H5 : (0 < qc 1 40)%Qc) by reflexivity.
  destruct steppers_iterate_the_cell as [A B].
  split.
  - split; [exact H1|]. split; [exact H2|]. split; [exact H2'|].
    exact (A field 1%nat c dt dx H1 H2 H2').
  - split; [exact H3|]. split; [exact H4|]. split; [exact H5|].
    exact (B exact_field 2%nat (qc 1 1) (qc 1 40) (qc 1 20) H3 H4 H5).
Defined.

(** ** Speed zero *)

(** The claim C5 fails as stated, for the arithmetic of the notebooks: on
    the field [[-1.7e308, 1.7e308]] with [c = 0], [dt = .025], [dx = .05]
    the difference [un[1] - un[0]] overflows to [inf], [0.0 * inf] is
    [nan], and one step leaves [nan] at index 1. *)
Lemma zero_speed_overflow :
  let big := F64.of_int (17 * 10 ^ 307) in
  let field := [PrimFloat.opp big; big] in
  let dt := F64.dec 1 40 in
  let dx := F64.dec 1 20 in
  F64.pos dx ∧ F64.pos dt ∧ forallb F64.finite field = true
  ∧ ∃ r, Num.advance_linear (arith:=F64.binary64) (F64.of_int 0) dt dx 1 field
         = Ok r
         ∧ r ≠ field
         ∧ F64.is_nan <$> r = [false; true].
Proof.
  intros big field dt dx.
  split; [vm_compute; reflexivity|]. split; [vm_compute; reflexivity|].
  split; [vm_compute; reflexivity|].
  eexists. split; [vm_compute; reflexivity|]. split.
  - intros E. apply (f_equal (fmap F64.is_nan)) in E. vm_compute in E.
    discriminate E.
  - vm_compute. reflexivity.
Qed.

(** C5, amended. In the linear stepper with speed [c = 0], for [dx > 0],
    a finite [dt > 0] and any number of steps: on a field of finite
    binary64 values in which no difference of two neighbours overflows,
    the result equals the input at every index ([==]; it is the input bit
    for bit when no entry is [-0.0]).  In exact arithmetic the result is
    the input field, for every field. *)
Theorem zero_speed_keeps_the_field :
  (∀ (field : list F64.float) (steps : nat) (dt dx : F64.float),
     F64.pos dx → F64.pos dt → F64.finite dt = true →
     forallb F64.finite field = true → F64.smooth field = true →
     ∃ r, Num.advance_linear (arith:=F64.binary64) (F64.of_int 0) dt dx
            (Z.of_nat steps) field = Ok r
          ∧ Forall2 F64.eq r field
          ∧ (forallb (λ x, negb (F64.is_neg_zero x)) field = true → r = field))
  ∧ (∀ (field : list Qc) (steps : nat) (dt dx : Qc),
       (0 < dx)%Qc → (0 < dt)%Qc →
       Num.advance_linear (arith:=exact_arith) 0%Qc dt dx (Z.of_nat steps) field
       = Ok field).
Proof.
  split.
  - intros field steps dt dx Hdx Hdt Hfin Hall Hs.
    eexists. split; [|split].
    + by apply f64_advance_linear, f64_positive_not_zero.
    + by apply f64_zero_speed_advance.
    + intros Hnz. apply num_advance_code_fixed, num_sweep_code_fixed.
      intros i x xl Hx Hxl. unfold Num.stencil_value, Num.speed_const.
      apply f64_sub_zero_eq.
      * apply f64_mul_zero_l; [by apply f64_zero_courant|].
        by eapply f64_smooth_lookup.
      * rewrite forallb_forall in Hnz.
        apply negb_true_iff, Hnz, list_elem_of_In.
        by apply list_elem_of_lookup_2 with (S i).
  - intros field steps dt dx Hdx%Qclt_not_eq_0 _.
    destruct (exact_advance_linear 0%Qc dt dx steps field Hdx) as [-> _].
    by rewrite advance_ref_speed_zero.
Qed.

Lemma zero_speed_keeps_the_field_witness :
  let field := [F64.of_int 1; F64.of_int 2; F64.dec 5 3] in
  let dt := F64.dec 1 40 in
  let dx := F64.dec 1 20 in
  (F64.pos dx ∧ F64.pos dt ∧ F64.finite dt = true
   ∧ forallb F64.finite field = true ∧ F64.smooth field = true
   ∧ ∃ r, Num.advance_linear (arith:=F64.binary64) (F64.of_int 0) dt dx
            (Z.of_nat 7) field = Ok r
          ∧ Forall2 F64.eq r field
          ∧ (forallb (λ x, negb (F64.is_neg_zero x)) field = true → r = field))
  ∧ ((0 < qc 1 20)%Qc ∧ (0 < qc 1 40)%Qc
     ∧ Num.advance_linear (arith:=exact_arith) 0%Qc (qc 1 40) (qc 1 20)
         (Z.of_nat 7) [qc 1 1; qc 2 1; qc 5 3]
       = Ok [qc 1 1; qc 2 1; qc 5 3]).
Proof.
  intros field dt dx.
  assert (H1 : F64.pos dx) by (vm_compute; reflexivity).
  assert (H2 : F64.pos dt) by (vm_compute; reflexivity).
  assert (H3 : F64.finite dt = true) by (vm_compute; reflexivity).
  assert (H4 : forallb F64.finite field = true) by (vm_compute; reflexivity).
  assert (H5 : F64.smooth field = true) by (vm_compute; reflexivity).
  assert (H6 : (0 < qc 1 20)%Qc) by reflexivity.
  assert (H7 : (0 < qc 1 40)%Qc) by reflexivity.
  destruct zero_speed_keeps_the_field as [A B].
  split.
  - split; [exact H1|]. split; [exact H2|]. split; [exact H3|].
    split; [exact H4|]. split; [exact H5|].
    exact (A field 7%nat dt dx H1 H2 H3 H4 H5).
  - split; [exact H6|]. split; [exact H7|].
    exact (B [qc 1 1; qc 2 1; qc 5 3] 7%nat (qc 1 40) (qc 1 20) H6 H7).
Defined.

(** ** The discrete maximum principle *)








(** * Further properties in binary64 *)

(** ** Uniform fields *)



(** With an infinite factor the uniform field is lost: [c = 1e308],
    [dt = 10], [dx = 1] give [inf * 0.0 = nan]. *)
Remark uniform_field_with_infinite_factor :
  observe (fmap F64.is_nan)
    (Num.advance_linear (F64.of_int (10 ^ 308)) (F64.of_int 10) (F64.of_int 1) 1
       (replicate 3 (F64.of_int 3)))
  = Some [false; true; true].
Proof. vm_compute. reflexivity. Qed.

Lemma f64_uniform_prefix (speed : F64.float → F64.float) dt dx v
    (field : list F64.float) (m n : nat) :
  F64.finite v = true → F64.is_neg_zero v = false →
  F64.finite (PrimFloat.div (PrimFloat.mul (speed v) dt) dx) = true →
  (m < length field)%nat →
  (∀ j, (j ≤ m)%nat → field !! j = Some v) →
  ∀ j, (j ≤ m)%nat → Num.advance_code speed dt dx n field !! j = Some v.
Proof.
  intros Hv Hnz Hk Hm H j Hj.
  assert (Ht : take (S m) field = take (S m) (replicate (S m) v)).
  { apply list_eq. intros i. destruct (decide (i < S m)%nat) as [Hi|Hi].
    - rewrite !lookup_take_lt by done. rewrite H by lia.
      symmetry. by apply lookup_replicate_2.
    - by rewrite !lookup_take_ge by lia. }
  rewrite <-(lookup_take_lt _ (S m)) by lia.
  rewrite (num_advance_code_local speed dt dx m n _ _ Ht).
  rewrite f64_uniform_fixed by done.
  rewrite lookup_take_lt by lia. apply lookup_replicate_2. lia.
Qed.

(** X8. In binary64, if the entries [0 .. m] of the input all hold the
    same finite value [v], not [-0.0], they still hold [v] after any
    number of steps: of the linear stepper when [c * dt / dx] is finite, of
    the nonlinear stepper when [v * dt / dx] is finite.  What lies to the
    right never changes them. *)
Theorem upstream_region_is_kept (field : list F64.float) (steps m : nat)
    (v c dt dx : F64.float) :
  F64.finite v = true → F64.is_neg_zero v = false → F64.is_zero dx = false →
  (m < length field)%nat →
  (∀ j, (j ≤ m)%nat → field !! j = Some v) →
  (F64.finite (PrimFloat.div (PrimFloat.mul c dt) dx) = true →
     ∃ r, Num.advance_linear c dt dx (Z.of_nat steps) field = Ok r
          ∧ ∀ j, (j ≤ m)%nat → r !! j = Some v)
  ∧ (F64.finite (PrimFloat.div (PrimFloat.mul v dt) dx) = true →
       ∃ r, Num.advance_nonlinear dt dx (Z.of_nat steps) field = Ok r
            ∧ ∀ j, (j ≤ m)%nat → r !! j = Some v).
Proof.
  intros Hv Hnz Hdx Hm H. split; intros Hk; eexists; split.
  - by apply f64_advance_linear.
  - by apply f64_uniform_prefix.
  - by apply f64_advance_nonlinear.
  - by apply f64_uniform_prefix.
Qed.

Lemma upstream_region_is_kept_witness :
  let one := F64.of_int 1 in
  let field := [one; one; F64.of_int 2; F64.of_int 3] in
  let dt := F64.dec 1 40 in
  let dx := F64.dec 1 20 in
  (∃ r, Num.advance_linear one dt dx (Z.of_nat 9) field = Ok r
        ∧ ∀ j, (j ≤ 1)%nat → r !! j = Some one)
  ∧ (∃ r, Num.advance_nonlinear dt dx (Z.of_nat 9) field = Ok r
          ∧ ∀ j, (j ≤ 1)%nat → r !! j = Some one).
Proof.
  intros one field dt dx.
  assert (H1 : F64.finite one = true) by (vm_compute; reflexivity).
  assert (H2 : F64.is_neg_zero one = false) by (vm_compute; reflexivity).
  assert (H3 : F64.is_zero dx = false) by (vm_compute; reflexivity).
  assert (H4 : (1 < length field)%nat) by (simpl; lia).
  assert (H5 : ∀ j, (j ≤ 1)%nat → field !! j = Some one).
  { intros [|[|j]] Hj; try lia; reflexivity. }
  assert (H6 : F64.finite (PrimFloat.div (PrimFloat.mul one dt) dx) = true)
    by (vm_compute; reflexivity).
  destruct (upstream_region_is_kept field 9 1 one one dt dx H1 H2 H3 H4 H5)
    as [A B].
  exact (conj (A H6) (B H6)).
Defined.

(** ** The grid in binary64 *)

Lemma grid_as_hat_spec (nx : Z) :
  grid_as_hat nx = true →
  Num.construct nx
  = Ok (PrimFloat.div (F64.of_int 2) (F64.of_int (nx - 1)), Num.hat nx).
Proof.
  unfold grid_as_hat.
  destruct (Num.construct nx) as [[dx u]|e]; [|done].
  intros [Hdx Hu]%andb_prop.
  apply FloatAxioms.Leibniz.eqb_spec in Hdx. apply f64_list_eqb_eq in Hu.
  by subst.
Qed.

Lemma grid_as_hat_186 : forallb grid_as_hat (seqZ 2 185) = true.
Proof. vm_compute. reflexivity. Qed.

(** X15. In binary64, for every number [2 <= nx <= 186] of grid points
    the construction succeeds: the spacing is the float [2 / (nx-1)] and
    the field has [nx] points, 2 at the indices
    [(nx-1) div 4 <= i < (nx+1) div 2] and 1 at the others. *)
Theorem construct_any_grid (nx : Z) :
  2 ≤ nx ≤ 186 →
  Num.construct nx
  = Ok (PrimFloat.div (F64.of_int 2) (F64.of_int (nx - 1)), Num.hat nx)
  ∧ Z.of_nat (length (Num.hat (T:=F64.float) nx)) = nx
  ∧ ∀ i : nat, Z.of_nat i < nx →
      Num.hat (T:=F64.float) nx !! i
      = Some (if decide ((nx - 1) ÷ 4 ≤ Z.of_nat i < (nx + 1) ÷ 2)
              then F64.of_int 2 else F64.of_int 1).
Proof.
  intros Hnx. split; [|split].
  - apply grid_as_hat_spec.
    pose proof grid_as_hat_186 as H. rewrite forallb_forall in H.
    apply H, list_elem_of_In, elem_of_seqZ. lia.
  - unfold Num.hat. rewrite length_fmap, length_seqZ. lia.
  - intros i Hi. unfold Num.hat.
    rewrite list_lookup_fmap, lookup_seqZ_lt by done. done.
Qed.

Lemma construct_any_grid_witness :
  2 ≤ 81 ≤ 186
  ∧ Num.construct 81
    = Ok (PrimFloat.div (F64.of_int 2) (F64.of_int (81 - 1)), Num.hat 81)
  ∧ Z.of_nat (length (Num.hat (T:=F64.float) 81)) = 81
  ∧ ∀ i : nat, Z.of_nat i < 81 →
      Num.hat (T:=F64.float) 81 !! i
      = Some (if decide ((81 - 1) ÷ 4 ≤ Z.of_nat i < (81 + 1) ÷ 2)
              then F64.of_int 2 else F64.of_int 1).
Proof.
  assert (H : 2 ≤ 81 ≤ 186) by lia. split; [exact H|].
  exact (construct_any_grid 81 H).
Defined.

(** On 187 points rounding moves the upper bound of the slice:
    [1 / dx + 1] is [93.99999999999999], so the raised part is
    [u[46:93]], one entry less than in exact arithmetic, and the point
    [i = 93], at [x = 1], holds 1. *)
Remark grid_of_187_points :
  observe (λ p, (F64.value <$> p.2 !! 92%nat, F64.value <$> p.2 !! 93%nat))
    (Num.construct (T:=F64.float) 187)
  = Some (Some (Some 2%Q), Some (Some 1%Q))
  ∧ this <$> hat 187 !! 93%nat = Some 2%Q
  ∧ F64.value (PrimFloat.mul (F64.of_int 93)
                 (PrimFloat.div (F64.of_int 2) (F64.of_int 186)))
    = Some 1%Q.
Proof. repeat split; vm_compute; reflexivity. Qed.

(** ** The notebooks from top to bottom *)

(** X17. In binary64, whenever the construction of the grid succeeds,
    both notebooks run to the end, for every number [nt] of time steps
    (none for [nt <= 0]): they return the constructed field advanced by
    the sweeps of the cell, a field of [nx] points. *)
Theorem lessons_run_on_any_grid (nx nt : Z) (c dt dx : F64.float)
    (u0 : list F64.float) :
  Num.construct nx = Ok (dx, u0) →
  Num.lesson1 nx nt c dt
  = Ok (Num.advance_code (Num.speed_const c) dt dx (Z.to_nat nt) u0)
  ∧ Num.lesson2 nx nt dt
    = Ok (Num.advance_code Num.speed_local dt dx (Z.to_nat nt) u0)
  ∧ Z.of_nat (length (Num.advance_code (Num.speed_const c) dt dx (Z.to_nat nt) u0))
    = nx
  ∧ Z.of_nat (length (Num.advance_code Num.speed_local dt dx (Z.to_nat nt) u0))
    = nx.
Proof.
  intros Hc.
  destruct (num_construct_inv _ _ _ Hc) as (Hdx & Hlen & _).
  split; [|split].
  - apply (num_lesson_stepper _ (λ d, Num.linear_update c dt d) nx nt dx u0);
      [|done].
    by apply num_linear_update_spec.
  - apply (num_lesson_stepper _ (λ d, Num.nonlinear_update dt d) nx nt dx u0);
      [|done].
    by apply num_nonlinear_update_spec.
  - by rewrite !num_length_advance_code.
Qed.

Lemma lessons_run_on_any_grid_witness :
  let dx := PrimFloat.div (F64.of_int 2) (F64.of_int 40) in
  let u0 := Num.hat (T:=F64.float) 41 in
  let c := F64.of_int 1 in
  let dt := F64.dec 1 40 in
  Num.construct 41 = Ok (dx, u0)
  ∧ Num.lesson1 41 25 c dt
    = Ok (Num.advance_code (Num.speed_const c) dt dx (Z.to_nat 25) u0)
  ∧ Num.lesson2 41 25 dt
    = Ok (Num.advance_code Num.speed_local dt dx (Z.to_nat 25) u0)
  ∧ Z.of_nat (length (Num.advance_code (Num.speed_const c) dt dx (Z.to_nat 25) u0))
    = 41
  ∧ Z.of_nat (length (Num.advance_code Num.speed_local dt dx (Z.to_nat 25) u0))
    = 41.
Proof.
  intros dx u0 c dt.
  assert (H : Num.construct 41 = Ok (dx, u0)) by (vm_compute; reflexivity).
  split; [exact H|].
  exact (lessons_run_on_any_grid 41 25 c dt dx u0 H).
Defined.
